(** * SoundMaker: the audio-source controller and its supervision loop

    A shallow embedding of [stream_player.py], [audio_controller.py],
    [airplay_manager.py] (pipe set-up and event reading), [player.py] (status
    publication and main loop) and [led_controller.py] (the status reader
    and the LED loop), followed by the properties established for them.

    Conventions.
    - Python [int] is [Z]; Python [str] is a list of Unicode code points.
    - The operating system is explicit: a table of the subprocesses spawned
      by the player, and a two-file view of the status directory.
    - Everything the code cannot decide by itself (does [mpv] start, does
      the process die during a sleep, does a system call fail) is an oracle
      argument of the operation that asks.
    - An exception that leaves a function is a [Raise] outcome. *)

From Stdlib Require Import ZArith String Ascii Lia.
From stdpp Require Import base list gmap.

Local Open Scope Z_scope.

(** ** Exceptions *)

Inductive exn :=
| FileNotFoundError
| PermissionError
| OSError               (* any other OSError *)
| TimeoutExpired
| UnicodeDecodeError
| ValueError
| RuntimeError.         (* any other Exception *)

(** [isinstance(e, OSError)] *)
Definition is_OSError (e : exn) : bool :=
  match e with
  | FileNotFoundError | PermissionError | OSError => true
  | _ => false
  end.

Inductive outcome (A : Type) :=
| Return (a : A)
| Raise (e : exn).
Arguments Return {A} a.
Arguments Raise {A} e.

(** ** The subprocess table *)

Inductive proc_status :=
| Running
| Exited (returncode : Z).

(** The table is indexed by process identity; [Popen] appends to it. *)
Abbreviation world := (list proc_status).

Definition alive (w : world) (p : nat) : Prop := w !! p = Some Running.

(** [Popen.poll()]: [None] while the process runs, its return code after.
    A handle outside the table has no process behind it. *)
Definition poll (w : world) (p : nat) : option Z :=
  match w !! p with
  | Some Running => None
  | Some (Exited c) => Some c
  | None => Some (-1)
  end.

(** The environment: a running process exits with some code. *)
Definition process_exits (p : nat) (code : Z) (w : world) : world :=
  match w !! p with
  | Some Running => <[p := Exited code]> w
  | _ => w
  end.

Fixpoint processes_exit (evs : list (nat * Z)) (w : world) : world :=
  match evs with
  | [] => w
  | (p, code) :: evs' => processes_exit evs' (process_exits p code w)
  end.

(** ** stream_player.py *)

Module StreamPlayer.

Record t := mk {
  stream_url : string;
  volume : Z;
  process : option nat;
  restart_count : Z;
  max_restart_attempts : Z;
  restart_delay : Z;
  _is_playing : bool
}.

Definition set_process (v : option nat) (sp : t) : t :=
  mk (stream_url sp) (volume sp) v (restart_count sp)
     (max_restart_attempts sp) (restart_delay sp) (_is_playing sp).

Definition set_restart_count (v : Z) (sp : t) : t :=
  mk (stream_url sp) (volume sp) (process sp) v
     (max_restart_attempts sp) (restart_delay sp) (_is_playing sp).

Definition set_is_playing (v : bool) (sp : t) : t :=
  mk (stream_url sp) (volume sp) (process sp) (restart_count sp)
     (max_restart_attempts sp) (restart_delay sp) v.

(** [__init__] *)
Definition init (url : string) (vol : Z) : t :=
  mk url vol None 0 10 3 false.

(** [is_mpv_available]: the argument is what [subprocess.run(["mpv",
    "--version"], ...)] and the decoding of its output did. *)
Definition is_mpv_available (probe : outcome Z) : outcome bool :=
  match probe with
  | Return rc => Return (rc =? 0)
  | Raise FileNotFoundError => Return false
  | Raise TimeoutExpired => Return false
  | Raise e => Raise e
  end.

Record start_oracle := {
  mpv_probe : outcome Z;          (* the [mpv --version] run *)
  popen : outcome unit;           (* [subprocess.Popen(cmd, ...)] *)
  early_exit : option Z;          (* the new process dies during [sleep(1)] *)
  stderr_read : outcome unit      (* [self.process.stderr.read()] *)
}.

(** The way [start] was left. *)
Inductive start_path :=
| ViaProbeRaised
| ViaMpvMissing
| ViaImmediateExit
| ViaStarted
| ViaFileNotFound
| ViaPermissionError
| ViaGenericException.

(** The three [except] clauses of [start], in source order. *)
Definition start_except (e : exn) (sp : t) : start_path * bool * t :=
  match e with
  | FileNotFoundError => (ViaFileNotFound, false, sp)
  | PermissionError => (ViaPermissionError, false, sp)
  | _ => (ViaGenericException, false, set_process None sp)
  end.

Definition start_via (o : start_oracle) (sp : t) (w : world)
  : start_path * outcome bool * t * world :=
  match is_mpv_available (mpv_probe o) with
  | Raise e => (ViaProbeRaised, Raise e, sp, w)
  | Return false => (ViaMpvMissing, Return false, sp, w)
  | Return true =>
    match popen o with
    | Raise e =>
      let '(via, r, sp') := start_except e sp in (via, Return r, sp', w)
    | Return _ =>
      let p := length w in
      let sp1 := set_process (Some p) sp in
      (* time.sleep(1) *)
      let w1 := match early_exit o with
                | Some code => process_exits p code (w ++ [Running])
                | None => w ++ [Running]
                end in
      match poll w1 p with
      | Some _ =>
        match stderr_read o with
        | Raise e =>
          let '(via, r, sp') := start_except e sp1 in (via, Return r, sp', w1)
        | Return _ => (ViaImmediateExit, Return false, set_process None sp1, w1)
        end
      | None => (ViaStarted, Return true, set_is_playing true sp1, w1)
      end
    end
  end.

Definition start (o : start_oracle) (sp : t) (w : world)
  : outcome bool * t * world :=
  let '(_, r, sp', w') := start_via o sp w in (r, sp', w').

(** [stop]: the argument is the return code if the process exits within
    the five seconds after [terminate()]; [None] is [TimeoutExpired], after
    which the process is killed. *)
Definition stop (graceful : option Z) (sp : t) (w : world) : t * world :=
  match process sp with
  | None => (sp, w)
  | Some p =>
    let w' := match graceful with
              | Some code => process_exits p code w
              | None => process_exits p (-9) w
              end in
    (set_is_playing false (set_process None sp), w')
  end.

Definition is_playing (sp : t) (w : world) : bool * t :=
  match process sp with
  | None => (false, sp)
  | Some p =>
    match poll w p with
    | Some _ => (false, set_is_playing false sp)
    | None => (_is_playing sp, sp)
    end
  end.

(** [wait]: blocks until the process has exited; the argument is the code
    it exits with if it is still running. *)
Definition wait (code : Z) (sp : t) (w : world) : Z * t * world :=
  match process sp with
  | None => (-1, sp, w)
  | Some p =>
    let w' := process_exits p code w in
    (default code (poll w' p), set_is_playing false sp, w')
  end.

Definition reset_restart_count (sp : t) : t := set_restart_count 0 sp.

Definition increment_restart_count (sp : t) : bool * t :=
  let sp' := set_restart_count (restart_count sp + 1) sp in
  (restart_count sp' >=? max_restart_attempts sp', sp').

End StreamPlayer.

(** ** audio_controller.py *)

Inductive AudioState := STREAMING | AIRPLAY | IDLE | TRANSITIONING.

Global Instance AudioState_eq_dec : EqDecision AudioState.
Proof. solve_decision. Defined.

Module AudioController.

Record t := mk {
  stream_player : StreamPlayer.t;
  state : AudioState
}.

Definition set_state (s : AudioState) (c : t) : t := mk (stream_player c) s.
Definition set_stream_player (sp : StreamPlayer.t) (c : t) : t := mk sp (state c).

(** [__init__] *)
Definition init (url : string) (vol : Z) : t :=
  mk (StreamPlayer.init url vol) IDLE.

(** The tail of [start_streaming], from [self.state = TRANSITIONING] on.
    When [StreamPlayer.start] raises, the exception leaves the method and
    the state stays [TRANSITIONING]. *)
Definition start_streaming_launch (o : StreamPlayer.start_oracle) (c : t) (w : world)
  : outcome bool * t * world :=
  let c1 := set_state TRANSITIONING c in
  let '(r, sp', w') := StreamPlayer.start o (stream_player c1) w in
  let c2 := set_stream_player sp' c1 in
  match r with
  | Raise e => (Raise e, c2, w')
  | Return true => (Return true, set_state STREAMING c2, w')
  | Return false => (Return false, set_state IDLE c2, w')
  end.

Definition start_streaming (o : StreamPlayer.start_oracle) (c : t) (w : world)
  : outcome bool * t * world :=
  if decide (state c = AIRPLAY) then (Return false, c, w)
  else if decide (state c = STREAMING) then
    let '(playing, sp') := StreamPlayer.is_playing (stream_player c) w in
    let c' := set_stream_player sp' c in
    if playing then (Return true, c', w)
    else start_streaming_launch o (set_state IDLE c') w
  else start_streaming_launch o c w.

Definition stop_streaming (graceful : option Z) (c : t) (w : world) : t * world :=
  if decide (state c = STREAMING) then
    let '(sp', w') := StreamPlayer.stop graceful (stream_player c) w in
    (set_state IDLE (set_stream_player sp' c), w')
  else if decide (state c = TRANSITIONING) then (set_state IDLE c, w)
  else (c, w).

Definition switch_to_airplay (graceful : option Z) (c : t) (w : world)
  : bool * t * world :=
  if decide (state c = AIRPLAY) then (true, c, w)
  else
    let '(c1, w1) :=
      if decide (state c = STREAMING) then stop_streaming graceful c w
      else (c, w) in
    (true, set_state AIRPLAY c1, w1).

Definition switch_to_streaming (o : StreamPlayer.start_oracle) (c : t) (w : world)
  : outcome bool * t * world :=
  let '(done, c1) :=
    if decide (state c = STREAMING) then
      let '(playing, sp') := StreamPlayer.is_playing (stream_player c) w in
      let c' := set_stream_player sp' c in
      if playing then (true, c') else (false, set_state IDLE c')
    else (false, c) in
  if done then (Return true, c1, w)
  else
    let c2 := if decide (state c1 = AIRPLAY) then set_state IDLE c1 else c1 in
    start_streaming o c2 w.

Definition get_state (c : t) : AudioState := state c.

Definition handle_stream_exit (return_code : Z) (c : t) : bool * t :=
  if decide (state c <> STREAMING) then (false, c)
  else if return_code =? 0 then (false, c)
  else
    let '(reached, sp') := StreamPlayer.increment_restart_count (stream_player c) in
    let c' := set_stream_player sp' c in
    if reached then (false, c') else (true, c').

Definition shutdown (graceful : option Z) (c : t) (w : world) : t * world :=
  let '(c', w') := stop_streaming graceful c w in
  (set_state IDLE c', w').

(** [is_streaming]: the liveness probe runs only in [STREAMING] mode. *)
Definition is_streaming (c : t) (w : world) : bool * t :=
  if decide (state c = STREAMING) then
    let '(playing, sp') := StreamPlayer.is_playing (stream_player c) w in
    (playing, set_stream_player sp' c)
  else (false, c).

End AudioController.

(** ** Python text *)

(** A [str] is its sequence of code points, a [bytes] its sequence of
    bytes. *)
Abbreviation pystr := (list N).

Definition py (s : string) : pystr := N_of_ascii <$> list_ascii_of_string s.

Definition bytes_of (s : string) : list Byte.byte :=
  byte_of_ascii <$> list_ascii_of_string s.

Local Open Scope N_scope.

(** The payload of a UTF-8 continuation byte [10xxxxxx]. *)
Definition continuation (b : N) : option N :=
  if (0x80 <=? b) && (b <=? 0xBF) then Some (b - 0x80) else None.

(** [bytes.decode('utf-8')] in strict mode, on byte values; [None] is
    [UnicodeDecodeError].  Overlong forms, surrogates and code points
    above U+10FFFF are rejected. *)
Fixpoint decode_utf8_N (bs : list N) : option pystr :=
  match bs with
  | [] => Some []
  | b0 :: r0 =>
    if b0 <? 0x80 then cons b0 <$> decode_utf8_N r0
    else if (0xC2 <=? b0) && (b0 <=? 0xDF) then
      match r0 with
      | b1 :: r1 =>
        match continuation b1 with
        | Some c1 => cons ((b0 - 0xC0) * 64 + c1) <$> decode_utf8_N r1
        | None => None
        end
      | _ => None
      end
    else if (0xE0 <=? b0) && (b0 <=? 0xEF) then
      match r0 with
      | b1 :: b2 :: r2 =>
        match continuation b1, continuation b2 with
        | Some c1, Some c2 =>
          let cp := (b0 - 0xE0) * 4096 + c1 * 64 + c2 in
          if (cp <? 0x800) || ((0xD800 <=? cp) && (cp <=? 0xDFFF)) then None
          else cons cp <$> decode_utf8_N r2
        | _, _ => None
        end
      | _ => None
      end
    else if (0xF0 <=? b0) && (b0 <=? 0xF4) then
      match r0 with
      | b1 :: b2 :: b3 :: r3 =>
        match continuation b1, continuation b2, continuation b3 with
        | Some c1, Some c2, Some c3 =>
          let cp := (b0 - 0xF0) * 262144 + c1 * 4096 + c2 * 64 + c3 in
          if (cp <? 0x10000) || (0x10FFFF <? cp) then None
          else cons cp <$> decode_utf8_N r3
        | _, _, _ => None
        end
      | _ => None
      end
    else None
  end.

Definition decode_utf8 (bs : list Byte.byte) : option pystr :=
  decode_utf8_N (Byte.to_N <$> bs).

(** [str.isspace] on one code point: the characters [str.strip()]
    removes. *)
Definition is_space (cp : N) : bool :=
  ((0x09 <=? cp) && (cp <=? 0x0D)) || ((0x1C <=? cp) && (cp <=? 0x20))
  || (cp =? 0x85) || (cp =? 0xA0) || (cp =? 0x1680)
  || ((0x2000 <=? cp) && (cp <=? 0x200A))
  || (cp =? 0x2028) || (cp =? 0x2029) || (cp =? 0x202F)
  || (cp =? 0x205F) || (cp =? 0x3000).

Fixpoint lstrip (s : pystr) : pystr :=
  match s with
  | cp :: s' => if is_space cp then lstrip s' else s
  | [] => []
  end.

Definition rstrip (s : pystr) : pystr := reverse (lstrip (reverse s)).

(** [str.strip()] *)
Definition strip (s : pystr) : pystr := rstrip (lstrip s).

(** [A]-[Z] to [a]-[z]; the rest of ASCII is fixed by [str.lower]. *)
Definition ascii_lower (cp : N) : N :=
  if (0x41 <=? cp) && (cp <=? 0x5A) then cp + 0x20 else cp.

Local Close Scope N_scope.

Section PythonRuntime.

(** Python's lower-case mapping of the code points above ASCII, which is a
    table of the interpreter's Unicode database and no part of this
    program.  A code point may map to several. *)
Variable unicode_lower : N -> list N.

(** [str.lower()] *)
Definition lower (s : pystr) : pystr :=
  s ≫= (fun cp => if (cp <? 0x80)%N then [ascii_lower cp] else unicode_lower cp).

End PythonRuntime.

(** ** airplay_manager.py: the event reader *)

Module AirPlayManager.

Record t := mk {
  pipe_fd : option Z;
  _is_connected : bool
}.

Definition set_pipe_fd (v : option Z) (m : t) : t := mk v (_is_connected m).

(** [__init__] *)
Definition init : t := mk None false.

Record open_oracle := {
  path_exists : bool;      (* [self.pipe_path.exists()] *)
  os_open : option Z       (* [os.open(...)]: a descriptor, or [OSError] *)
}.

Definition open_pipe (o : open_oracle) (m : t) : bool * t :=
  if negb (path_exists o) then (false, m)
  else match os_open o with
       | Some fd => (true, set_pipe_fd (Some fd) m)
       | None => (false, m)
       end.

(** [close_pipe]: the argument is what [os.close] did; its exception is
    caught and the descriptor is then kept. *)
Definition close_pipe (closed : outcome unit) (m : t) : t :=
  match pipe_fd m with
  | None => m
  | Some _ =>
    match closed with
    | Return _ => set_pipe_fd None m
    | Raise _ => m
    end
  end.

Definition cleanup (closed : outcome unit) (m : t) : t := close_pipe closed m.

(** The pipe path as [setup_ipc] sees it: the permission bits of the FIFO
    if the path exists, and the umask of the process. *)
Record pipe_fs := {
  fifo_mode : option Z;
  umask : Z
}.

Record setup_oracle := {
  test_open : bool;          (* the trial [os.open] and [os.close] succeed *)
  unlink : bool;             (* [self.pipe_path.unlink()] succeeds *)
  mkfifo : bool;             (* [os.mkfifo] succeeds *)
  chmod : bool;              (* [os.chmod] succeeds *)
  chown : outcome unit       (* the [chown root:root] subprocess *)
}.

(** [0o666], [rw-rw-rw-] *)
Definition mode_rw_all : Z := 0x1b6.

(** Lines 305-333: create the FIFO with the umask cleared and restore the
    umask in the [finally] clause.  [None] is an [OSError] on its way to the
    outer handler. *)
Definition create_pipe (o : setup_oracle) (fs : pipe_fs) : option unit * pipe_fs :=
  let old_umask := umask fs in
  let fs0 := {| fifo_mode := fifo_mode fs; umask := 0 |} in
  let '(r, fs1) :=
    match fifo_mode fs0 with
    | Some _ => (None, fs0)                       (* FileExistsError *)
    | None =>
      if mkfifo o then
        let fs1 := {| fifo_mode := Some (Z.land mode_rw_all (Z.lnot (umask fs0)));
                      umask := umask fs0 |} in
        if chmod o
        then (Some tt, {| fifo_mode := Some mode_rw_all; umask := umask fs1 |})
        else (None, fs1)
      else (None, fs0)
    end in
  (r, {| fifo_mode := fifo_mode fs1; umask := old_umask |}).

Definition setup_ipc (o : setup_oracle) (fs : pipe_fs) : bool * pipe_fs :=
  let created fs' :=
    match create_pipe o fs' with
    | (Some _, fs'') => (true, fs'')
    | (None, fs'') => (false, fs'')               (* except OSError *)
    end in
  match fifo_mode fs with
  | Some _ =>
    if test_open o then (true, fs)
    else if unlink o
         then created {| fifo_mode := None; umask := umask fs |}
         else (true, fs)
  | None => created fs
  end.

Record event_oracle := {
  reopen : open_oracle;                   (* [open_pipe()] when no descriptor is held *)
  select : outcome bool;                  (* is the descriptor ready within the timeout *)
  os_read : outcome (list Byte.byte);     (* what the pipe holds, for [os.read] *)
  os_close : outcome unit;                (* [os.close] in the [OSError] handler *)
  path_exists_after : bool;               (* [self.pipe_path.exists()] in the handler *)
  reopen_after : open_oracle              (* [open_pipe()] in the handler *)
}.

Section Reader.

Variable unicode_lower : N -> list N.

(** The body of the inner [try]: read at most 64 bytes, decode, strip,
    lower, classify.  Falling through to the final [return None] is
    [Return None]. *)
Definition read_event (read : outcome (list Byte.byte)) : outcome (option pystr) :=
  match read with
  | Raise e => Raise e
  | Return pipe =>
    match decode_utf8 (take 64 pipe) with
    | None => Raise UnicodeDecodeError
    | Some text =>
      let data := strip text in
      match data with
      | [] => Return None
      | _ =>
        let event := lower unicode_lower data in
        if bool_decide (event ∈ [py "connect"; py "disconnect"])
        then Return (Some event)
        else Return None
      end
    end
  end.

(** The body of [except OSError]. *)
Definition close_and_reopen (o : event_oracle) (m : t) : t :=
  let m1 := close_pipe (os_close o) m in
  if path_exists_after o then snd (open_pipe (reopen_after o) m1) else m1.

(** The first lines of [check_event]: reopen the pipe if it is closed. *)
Definition ensure_open (o : event_oracle) (m : t) : bool * t :=
  match pipe_fd m with
  | None => open_pipe (reopen o) m
  | Some _ => (true, m)
  end.

Definition check_event (o : event_oracle) (m : t) : outcome (option pystr) * t :=
  let '(usable, m1) := ensure_open o m in
  if negb usable then (Return None, m1)
  else
    match select o with
    | Return true =>
      match read_event (os_read o) with
      | Return r => (Return r, m1)
      | Raise UnicodeDecodeError => (Return None, m1)   (* except UnicodeDecodeError *)
      | Raise _ => (Return None, m1)                    (* except Exception *)
      end
    | Return false => (Return None, m1)
    | Raise e =>
      if is_OSError e then (Return None, close_and_reopen o m1)   (* except OSError *)
      else (Return None, m1)                                     (* except Exception *)
    end.

End Reader.

End AirPlayManager.

(** ** The status directory *)

(** [/tmp/soundmaker_state] and [/tmp/soundmaker_state.tmp]; [None] is a
    file that does not exist. *)
Record status_dir := {
  state_file : option pystr;
  temp_file : option pystr
}.

(** [AudioState.value] *)
Definition AudioState_value (s : AudioState) : pystr :=
  match s with
  | STREAMING => py "streaming"
  | AIRPLAY => py "airplay"
  | IDLE => py "idle"
  | TRANSITIONING => py "transitioning"
  end.

(** What the file-system calls of one [write_state_file] do; every failure
    is an exception caught by its [except Exception]. *)
Inductive write_oracle :=
| WriteOk
| MkdirFails
| OpenFails
| WriteFails (written : nat)    (* only that many characters reached the file *)
| ReplaceFails.

Section Status.

Variable unicode_lower : N -> list N.

(** The argument of [write_state_file] is an [AudioState] or a [str]. *)
Definition state_str (state : AudioState + pystr) : pystr :=
  match state with
  | inl s => AudioState_value s
  | inr s => lower unicode_lower s
  end.

(** [write_state_file], call by call: the directory after [open(temp_file,
    'w')], after the write, and after [temp_file.replace(STATE_FILE)]. *)
Definition write_state_file_steps
    (o : write_oracle) (state : AudioState + pystr) (d : status_dir)
  : list status_dir :=
  let content := state_str state ++ [10%N] in
  let opened := {| state_file := state_file d; temp_file := Some [] |} in
  let written := {| state_file := state_file d; temp_file := Some content |} in
  match o with
  | MkdirFails | OpenFails => []
  | WriteFails n =>
    [opened; {| state_file := state_file d; temp_file := Some (take n content) |}]
  | ReplaceFails => [opened; written]
  | WriteOk => [opened; written; {| state_file := Some content; temp_file := None |}]
  end.

Definition write_state_file
    (o : write_oracle) (state : AudioState + pystr) (d : status_dir) : status_dir :=
  default d (last (write_state_file_steps o state d)).

(** [LEDController.read_state] of led_controller.py, on one snapshot of the
    directory. *)
Definition read_state (d : status_dir) : option pystr :=
  match state_file d with
  | None => None
  | Some content =>
    let state := lower unicode_lower (strip content) in
    if bool_decide (state ∈ [py "streaming"; py "airplay"; py "idle"])
    then Some state else None
  end.

End Status.

(** ** led_controller.py *)

Module LEDController.

Inductive level := LOW | HIGH.

Definition STREAM_LED_PIN : nat := 17.
Definition AIRPLAY_LED_PIN : nat := 27.

(** The output level of each GPIO pin, and the [last_state] of [run]. *)
Record t := mk {
  gpio : gmap nat level;
  last_state : option pystr
}.

(** [__init__], when no GPIO call fails: both pins are outputs at [LOW]. *)
Definition init : t :=
  mk (<[AIRPLAY_LED_PIN := LOW]> (<[STREAM_LED_PIN := LOW]> ∅)) None.

(** [update_leds]: two [GPIO.output] calls in the order of the branch
    taken; the arguments say whether the first and the second succeed.  An
    exception of the first skips the second, and either is caught. *)
Definition update_leds (ok1 ok2 : bool) (state : option pystr) (g : gmap nat level)
  : gmap nat level :=
  let '(pin1, level1, pin2, level2) :=
    if bool_decide (state = Some (py "airplay"))
    then (AIRPLAY_LED_PIN, HIGH, STREAM_LED_PIN, LOW)
    else if bool_decide (state = Some (py "streaming"))
    then (STREAM_LED_PIN, HIGH, AIRPLAY_LED_PIN, LOW)
    else (STREAM_LED_PIN, LOW, AIRPLAY_LED_PIN, LOW) in
  if ok1 then
    let g1 := <[pin1 := level1]> g in
    if ok2 then <[pin2 := level2]> g1 else g1
  else g.

Record poll_oracle := {
  readable : bool;       (* opening and reading the status file succeed *)
  gpio_first : bool;
  gpio_second : bool
}.

Section Run.

Variable unicode_lower : N -> list N.

(** One pass through the body of [while True] in [run], on the status
    directory as it is at that moment. *)
Definition run_iteration (o : poll_oracle) (snap : status_dir) (l : t) : t :=
  let current_state := if readable o then read_state unicode_lower snap else None in
  if bool_decide (current_state <> last_state l)
  then mk (update_leds (gpio_first o) (gpio_second o) current_state (gpio l)) current_state
  else l.

Fixpoint run (polls : list (poll_oracle * status_dir)) (l : t) : t :=
  match polls with
  | [] => l
  | (o, snap) :: polls' => run polls' (run_iteration o snap l)
  end.

End Run.

End LEDController.

(** ** player.py: the supervision loop *)

Module Player.

(** The module globals and the locals of [main], with the operating
    system they act on.  [observed] lists every snapshot the status
    directory went through, oldest first. *)
Record t := mk {
  audio_controller : AudioController.t;
  airplay_manager : option AirPlayManager.t;
  last_state : option AudioState;
  procs : world;
  dir : status_dir;
  observed : list status_dir
}.

Definition set_controller (c : AudioController.t) (w : world) (d : t) : t :=
  mk c (airplay_manager d) (last_state d) w (dir d) (observed d).

Definition set_airplay_manager (m : option AirPlayManager.t) (d : t) : t :=
  mk (audio_controller d) m (last_state d) (procs d) (dir d) (observed d).

Definition set_last_state (s : option AudioState) (d : t) : t :=
  mk (audio_controller d) (airplay_manager d) s (procs d) (dir d) (observed d).

Inductive control :=
| Continue
| Break
| SysExit (code : Z).

Record shutdown_oracle := {
  shutdown_write : write_oracle;
  shutdown_stop : option Z;
  shutdown_close : outcome unit
}.

Record loop_oracle := {
  exits_before : list (nat * Z);          (* subprocess exits since the last iteration *)
  event : AirPlayManager.event_oracle;    (* [check_event] *)
  airplay_stop : option Z;                (* [stop] inside [switch_to_airplay] *)
  streaming_start : StreamPlayer.start_oracle;   (* [start] inside [switch_to_streaming] *)
  write_event : write_oracle;
  exits_between : list (nat * Z);         (* subprocess exits before the liveness check *)
  write_change : write_oracle;
  wait_code : Z;                          (* [stream_player.wait()] *)
  write_idle : write_oracle;
  second_start : StreamPlayer.start_oracle;      (* the restart, or the start from idle *)
  write_after : write_oracle;
  on_error : shutdown_oracle              (* [signal_handler] from [except Exception] *)
}.

Section Main.

Variable unicode_lower : N -> list N.

(** One call of [write_state_file]. *)
Definition publish (o : write_oracle) (state : AudioState + pystr) (d : t) : t :=
  mk (audio_controller d) (airplay_manager d) (last_state d) (procs d)
     (write_state_file unicode_lower o state (dir d))
     (observed d ++ write_state_file_steps unicode_lower o state (dir d)).

(** [signal_handler], up to its [sys.exit(0)]. *)
Definition signal_handler (o : shutdown_oracle) (d : t) : t :=
  let d1 := publish (shutdown_write o) (inr (py "idle")) d in
  let '(c', w') :=
    AudioController.shutdown (shutdown_stop o) (audio_controller d1) (procs d1) in
  set_airplay_manager
    (AirPlayManager.cleanup (shutdown_close o) <$> airplay_manager d1)
    (set_controller c' w' d1).

(** Lines 161-170: the AirPlay event of this iteration. *)
Definition handle_event (o : loop_oracle) (d : t) : outcome unit * t :=
  match airplay_manager d with
  | None => (Return tt, d)
  | Some m =>
    let '(r, m') := AirPlayManager.check_event unicode_lower (event o) m in
    let d1 := set_airplay_manager (Some m') d in
    match r with
    | Raise e => (Raise e, d1)
    | Return None => (Return tt, d1)
    | Return (Some ev) =>
      if bool_decide (ev = py "connect") then
        let '(_, c', w') :=
          AudioController.switch_to_airplay (airplay_stop o) (audio_controller d1) (procs d1) in
        (Return tt,
         publish (write_event o) (inl (AudioController.get_state c')) (set_controller c' w' d1))
      else if bool_decide (ev = py "disconnect") then
        let '(r', c', w') :=
          AudioController.switch_to_streaming (streaming_start o) (audio_controller d1) (procs d1) in
        let d2 := set_controller c' w' d1 in
        match r' with
        | Raise e => (Raise e, d2)
        | Return _ =>
          (Return tt, publish (write_event o) (inl (AudioController.get_state c')) d2)
        end
      else (Return tt, d1)
    end
  end.

(** Lines 173-178: publish the mode when it differs from the last one seen
    here. *)
Definition publish_change (o : loop_oracle) (d : t) : AudioState * t :=
  let current_state := AudioController.get_state (audio_controller d) in
  if bool_decide (Some current_state <> last_state d)
  then (current_state,
        set_last_state (Some current_state)
          (publish (write_change o) (inl current_state) d))
  else (current_state, d).

(** Lines 180-220: the branch on [current_state]. *)
Definition supervise (o : loop_oracle) (current_state : AudioState) (d : t)
  : outcome control * t :=
  let c := audio_controller d in
  match current_state with
  | STREAMING =>
    let '(playing, sp1) :=
      StreamPlayer.is_playing (AudioController.stream_player c) (procs d) in
    let c1 := AudioController.set_stream_player sp1 c in
    if playing then (Return Continue, set_controller c1 (procs d) d)
    else
      let '(return_code, sp2, w2) := StreamPlayer.wait (wait_code o) sp1 (procs d) in
      let c2 := AudioController.set_stream_player sp2 c1 in
      let '(should_restart, c3) := AudioController.handle_stream_exit return_code c2 in
      if should_restart then
        let c4 := AudioController.set_state IDLE c3 in
        let d4 := publish (write_idle o) (inl (AudioController.get_state c4))
                    (set_controller c4 w2 d) in
        let '(r, c5, w5) := AudioController.start_streaming (second_start o) c4 w2 in
        match r with
        | Raise e => (Raise e, set_controller c5 w5 d4)
        | Return true =>
          let c6 := AudioController.set_stream_player
                      (StreamPlayer.reset_restart_count (AudioController.stream_player c5))
                      c5 in
          (Return Continue,
           publish (write_after o) (inl (AudioController.get_state c6))
             (set_controller c6 w5 d4))
        | Return false =>
          (Return Continue,
           publish (write_after o) (inl (AudioController.get_state c5))
             (set_controller c5 w5 d4))
        end
      else (Return Break, set_controller c3 w2 d)
  | AIRPLAY => (Return Continue, d)
  | _ =>
    let '(r, c1, w1) := AudioController.start_streaming (second_start o) c (procs d) in
    match r with
    | Raise e => (Raise e, set_controller c1 w1 d)
    | Return _ =>
      (Return Continue,
       publish (write_after o) (inl (AudioController.get_state c1)) (set_controller c1 w1 d))
    end
  end.

(** One pass through the body of [while True], with its [except
    Exception] clause. *)
Definition loop_iteration (o : loop_oracle) (d : t) : control * t :=
  let d0 := set_controller (audio_controller d) (processes_exit (exits_before o) (procs d)) d in
  match handle_event o d0 with
  | (Raise _, d1) => (SysExit 0, signal_handler (on_error o) d1)
  | (Return _, d1) =>
    let '(current_state, d2) := publish_change o d1 in
    let d3 := set_controller (audio_controller d2)
                (processes_exit (exits_between o) (procs d2)) d2 in
    match supervise o current_state d3 with
    | (Raise _, d4) => (SysExit 0, signal_handler (on_error o) d4)
    | (Return k, d4) => (k, d4)
    end
  end.

Fixpoint main_loop (os : list loop_oracle) (d : t) : control * t :=
  match os with
  | [] => (Continue, d)
  | o :: os' =>
    match loop_iteration o d with
    | (Continue, d') => main_loop os' d'
    | stopped => stopped
    end
  end.

(** [main] from the construction of the controller on: the first
    [start_streaming], the first publication, then the loop for as many
    iterations as there are oracles and, if it still runs, a shutdown
    signal.  [manager] is what the pipe set-up left in [airplay_manager]. *)
Definition main (url : string) (vol : Z) (manager : option AirPlayManager.t)
    (dir0 : status_dir)
    (first_start : StreamPlayer.start_oracle) (first_write : write_oracle)
    (os : list loop_oracle) (signal : option shutdown_oracle) : control * t :=
  let d := mk (AudioController.init url vol) manager None [] dir0 [] in
  let '(r, c', w') :=
    AudioController.start_streaming first_start (audio_controller d) (procs d) in
  let d1 := set_controller c' w' d in
  match r with
  | Return true =>
    let d2 := publish first_write (inl (AudioController.get_state c')) d1 in
    match main_loop os d2, signal with
    | (Continue, d3), Some so => (SysExit 0, signal_handler so d3)
    | stopped, _ => stopped
    end
  | _ => (SysExit 1, d1)
  end.

End Main.

End Player.

(** ** Vocabulary of the properties *)

(** A status line: one of the three tokens and the newline the writer
    appends. *)
Definition token_line (s : pystr) : Prop :=
  s = py "streaming" ++ [10%N] \/ s = py "airplay" ++ [10%N] \/ s = py "idle" ++ [10%N].

(** The status file of a snapshot is as it was at [dir0], or holds a
    complete status line. *)
Definition untouched_or_token (dir0 snap : status_dir) : Prop :=
  state_file snap = state_file dir0
  \/ exists s, state_file snap = Some s /\ token_line s.

(** A code point of the ASCII range. *)
Definition is_ascii (cp : N) : Prop := (cp < 0x80)%N.

(** Every live subprocess is the one the player holds, and the controller
    is then in [STREAMING] mode with the playing flag set. *)
Definition owned (c : AudioController.t) (w : world) : Prop :=
  forall p, alive w p ->
    StreamPlayer.process (AudioController.stream_player c) = Some p
    /\ AudioController.state c = STREAMING
    /\ StreamPlayer._is_playing (AudioController.stream_player c) = true.

Definition quiet (w : world) : Prop := forall p, ~ alive w p.

(** Every snapshot so far, and the directory now, shows the status file
    untouched or holding a status line. *)
Definition published_ok (dir0 : status_dir) (d : Player.t) : Prop :=
  Forall (untouched_or_token dir0) (Player.observed d)
  /\ untouched_or_token dir0 (Player.dir d).

Definition settled (dir0 : status_dir) (d : Player.t) : Prop :=
  published_ok dir0 d /\ AudioController.state (Player.audio_controller d) <> TRANSITIONING.

(** The same mutual exclusion holds along the program: at the end of every
    iteration each live subprocess is the player's, in [STREAMING] mode. *)
Definition supervised (d : Player.t) : Prop :=
  owned (Player.audio_controller d) (Player.procs d).

(** Every write of the status file that the iteration may perform
    succeeds. *)
Definition writes_succeed (o : Player.loop_oracle) : Prop :=
  Player.write_event o = WriteOk /\ Player.write_change o = WriteOk
  /\ Player.write_idle o = WriteOk /\ Player.write_after o = WriteOk
  /\ Player.shutdown_write (Player.on_error o) = WriteOk.

(** The status file holds the line of the controller's mode. *)
Definition tells_mode (d : Player.t) : Prop :=
  state_file (Player.dir d)
  = Some (AudioState_value (AudioController.state (Player.audio_controller d)) ++ [10%N]).

(** The restart counter and its maximum, as fields of the program state. *)
Definition restarts (d : Player.t) : Z :=
  StreamPlayer.restart_count (AudioController.stream_player (Player.audio_controller d)).

Definition max_restarts (d : Player.t) : Z :=
  StreamPlayer.max_restart_attempts (AudioController.stream_player (Player.audio_controller d)).

(** The counter leaves room for another restart. *)
Definition in_budget (d : Player.t) : Prop :=
  max_restarts d = 10 /\ 0 <= restarts d < 10.

(** The two LEDs show a state: the stream LED is lit for [streaming], the
    AirPlay LED for [airplay], and neither otherwise. *)
Definition leds_show (g : gmap nat LEDController.level) (state : option pystr) : Prop :=
  g !! LEDController.STREAM_LED_PIN
  = Some (if bool_decide (state = Some (py "streaming"))
          then LEDController.HIGH else LEDController.LOW)
  /\ g !! LEDController.AIRPLAY_LED_PIN
     = Some (if bool_decide (state = Some (py "airplay"))
             then LEDController.HIGH else LEDController.LOW).


(** ** Sequences of controller operations *)

(** One call on the controller or its player, or one move of the
    environment, each with the oracle it consumes. *)
Inductive op :=
| OpStartStreaming (o : StreamPlayer.start_oracle)
| OpStopStreaming (graceful : option Z)
| OpSwitchToAirplay (graceful : option Z)
| OpSwitchToStreaming (o : StreamPlayer.start_oracle)
| OpHandleStreamExit (return_code : Z)
| OpShutdown (graceful : option Z)
| OpIsPlaying
| OpWait (code : Z)
| OpResetRestartCount
| EnvProcessExits (p : nat) (code : Z).

Definition apply_op (x : op) (c : AudioController.t) (w : world)
  : AudioController.t * world :=
  match x with
  | OpStartStreaming o =>
    let '(_, c', w') := AudioController.start_streaming o c w in (c', w')
  | OpStopStreaming g => AudioController.stop_streaming g c w
  | OpSwitchToAirplay g =>
    let '(_, c', w') := AudioController.switch_to_airplay g c w in (c', w')
  | OpSwitchToStreaming o =>
    let '(_, c', w') := AudioController.switch_to_streaming o c w in (c', w')
  | OpHandleStreamExit rc => (snd (AudioController.handle_stream_exit rc c), w)
  | OpShutdown g => AudioController.shutdown g c w
  | OpIsPlaying =>
    (AudioController.set_stream_player
       (snd (StreamPlayer.is_playing (AudioController.stream_player c) w)) c, w)
  | OpWait code =>
    let '(_, sp', w') := StreamPlayer.wait code (AudioController.stream_player c) w in
    (AudioController.set_stream_player sp' c, w')
  | OpResetRestartCount =>
    (AudioController.set_stream_player
       (StreamPlayer.reset_restart_count (AudioController.stream_player c)) c, w)
  | EnvProcessExits p code => (c, process_exits p code w)
  end.

Fixpoint run_ops (ops : list op) (c : AudioController.t) (w : world)
  : AudioController.t * world :=
  match ops with
  | [] => (c, w)
  | x :: ops' => let '(c', w') := apply_op x c w in run_ops ops' c' w'
  end.

(** Consecutive player exits handed to [handle_stream_exit]. *)
Fixpoint handle_stream_exits (codes : list Z) (c : AudioController.t)
  : list bool * AudioController.t :=
  match codes with
  | [] => ([], c)
  | rc :: codes' =>
    let '(b, c1) := AudioController.handle_stream_exit rc c in
    let '(bs, c2) := handle_stream_exits codes' c1 in
    (b :: bs, c2)
  end.

(** ** Sample runs *)

(** [mpv] is there, starts, and is still running after a second. *)
Definition started : StreamPlayer.start_oracle :=
  {| StreamPlayer.mpv_probe := Return 0;
     StreamPlayer.popen := Return tt;
     StreamPlayer.early_exit := None;
     StreamPlayer.stderr_read := Return tt |}.

Definition no_pipe : AirPlayManager.open_oracle :=
  {| AirPlayManager.path_exists := false; AirPlayManager.os_open := None |}.

(** An iteration in which nothing arrives and every call succeeds. *)
Definition uneventful : Player.loop_oracle :=
  {| Player.exits_before := [];
     Player.event :=
       {| AirPlayManager.reopen := no_pipe;
          AirPlayManager.select := Return false;
          AirPlayManager.os_read := Return [];
          AirPlayManager.os_close := Return tt;
          AirPlayManager.path_exists_after := false;
          AirPlayManager.reopen_after := no_pipe |};
     Player.airplay_stop := Some (-15);
     Player.streaming_start := started;
     Player.write_event := WriteOk;
     Player.exits_between := [];
     Player.write_change := WriteOk;
     Player.wait_code := 0;
     Player.write_idle := WriteOk;
     Player.second_start := started;
     Player.write_after := WriteOk;
     Player.on_error :=
       {| Player.shutdown_write := WriteOk;
          Player.shutdown_stop := Some (-15);
          Player.shutdown_close := Return tt |} |}.

(** The player process [p] has exited with [code] when the iteration
    begins; [second] decides the restart, if one is attempted. *)
Definition player_exits (p : nat) (code : Z) (second : StreamPlayer.start_oracle)
  : Player.loop_oracle :=
  {| Player.exits_before := [(p, code)];
     Player.event := Player.event uneventful;
     Player.airplay_stop := Player.airplay_stop uneventful;
     Player.streaming_start := started;
     Player.write_event := WriteOk;
     Player.exits_between := [];
     Player.write_change := WriteOk;
     Player.wait_code := code;
     Player.write_idle := WriteOk;
     Player.second_start := second;
     Player.write_after := WriteOk;
     Player.on_error := Player.on_error uneventful |}.

(** The [mpv] binary is not there. *)
Definition mpv_missing : StreamPlayer.start_oracle :=
  {| StreamPlayer.mpv_probe := Raise FileNotFoundError;
     StreamPlayer.popen := Return tt;
     StreamPlayer.early_exit := None;
     StreamPlayer.stderr_read := Return tt |}.

(** [n] rounds of: the player exits with code 1 and the restart fails
    because [mpv] has gone; on the next iteration, from idle, it starts
    again. *)
Fixpoint failing_rounds (n : nat) (p : nat) : list Player.loop_oracle :=
  match n with
  | O => []
  | S n' => player_exits p 1 mpv_missing :: uneventful :: failing_rounds n' (S p)
  end.

(** An iteration in which [connect] arrives on the open pipe. *)
Definition connect_arrives : Player.loop_oracle :=
  {| Player.exits_before := [];
     Player.event :=
       {| AirPlayManager.reopen := no_pipe;
          AirPlayManager.select := Return true;
          AirPlayManager.os_read := Return (bytes_of "connect");
          AirPlayManager.os_close := Return tt;
          AirPlayManager.path_exists_after := false;
          AirPlayManager.reopen_after := no_pipe |};
     Player.airplay_stop := Some (-15);
     Player.streaming_start := started;
     Player.write_event := WriteOk;
     Player.exits_between := [];
     Player.write_change := WriteOk;
     Player.wait_code := 0;
     Player.write_idle := WriteOk;
     Player.second_start := started;
     Player.write_after := WriteOk;
     Player.on_error := Player.on_error uneventful |}.

(** The program while the player runs and the pipe is open, and while
    AirPlay is active. *)
Definition streaming_daemon : Player.t :=
  Player.mk
    (AudioController.mk (StreamPlayer.mk "http://radio" 100 (Some 0%nat) 0 10 3 true)
       STREAMING)
    (Some (AirPlayManager.mk (Some 5) false)) (Some STREAMING) [Running]
    {| state_file := Some (py "streaming" ++ [10%N]); temp_file := None |} [].

Definition airplay_daemon : Player.t :=
  Player.mk
    (AudioController.mk (StreamPlayer.mk "http://radio" 100 None 0 10 3 false) AIRPLAY)
    (Some (AirPlayManager.mk (Some 5) false)) (Some AIRPLAY) [Exited (-15)]
    {| state_file := Some (py "airplay" ++ [10%N]); temp_file := None |} [].

(** * Properties *)

Import StreamPlayer AudioController.

(** ** The player *)

Lemma process_exits_length p code (w : world) :
  length (process_exits p code w) = length w.
Proof.
  unfold process_exits. destruct (w !! p) as [[|]|]; auto using length_insert.
Qed.

Lemma alive_process_exits p code (w : world) q :
  alive (process_exits p code w) q -> alive w q.
Proof.
  unfold alive, process_exits. destruct (w !! p) as [[|c]|] eqn:E; auto.
  destruct (decide (p = q)) as [->|Hne].
  - rewrite list_lookup_insert_eq by (eapply lookup_lt_Some; eauto). discriminate.
  - rewrite list_lookup_insert_ne by done. auto.
Qed.

Lemma not_alive_process_exits p code (w : world) :
  ~ alive (process_exits p code w) p.
Proof.
  unfold alive, process_exits. destruct (w !! p) as [[|c]|] eqn:E.
  - rewrite list_lookup_insert_eq by (eapply lookup_lt_Some; eauto). discriminate.
  - rewrite E. discriminate.
  - rewrite E. discriminate.
Qed.

Lemma poll_None_alive (w : world) p : poll w p = None <-> alive w p.
Proof.
  unfold poll, alive. destruct (w !! p) as [[|c]|]; split; congruence.
Qed.

(** C9. [StreamPlayer.stop] always returns with the process handle cleared
    and [is_playing()] false afterwards, whatever the process does in the
    grace period; a second call in a row changes neither the player nor the
    subprocess table. *)
Theorem stop_idempotent_infallible (graceful : option Z) (sp : StreamPlayer.t) (w : world) :
  let '(sp1, w1) := stop graceful sp w in
  process sp1 = None
  /\ (forall w', fst (is_playing sp1 w') = false)
  /\ (forall graceful', stop graceful' sp1 w1 = (sp1, w1)).
Proof.
  unfold stop. destruct (process sp) as [p|] eqn:Hp.
  - repeat split.
  - split; [assumption|]. split.
    + intros w'. unfold is_playing. now rewrite Hp.
    + intros g'. unfold stop. now rewrite Hp.
Qed.

Lemma start_via_result (o : start_oracle) (sp : StreamPlayer.t) (w : world) :
  start o sp w =
  let '(_, r, sp', w') := start_via o sp w in (r, sp', w').
Proof. reflexivity. Qed.

(** C10. When [start] fails through the immediate-exit check or through
    [except Exception], it returns [False] with the handle cleared, so
    [is_playing()] is false afterwards.  The [FileNotFoundError] and
    [PermissionError] clauses return [False] too but leave the field as it
    was when the exception was raised: the caller's old handle when [Popen]
    raised.  Such a handle is in general not [None]. *)
Theorem start_failure_clears_handle (o : start_oracle) (sp : StreamPlayer.t) (w : world) :
  let '(via, r, sp', w') := start_via o sp w in
  (via = ViaImmediateExit \/ via = ViaGenericException ->
     r = Return false /\ process sp' = None
     /\ forall w'', fst (is_playing sp' w'') = false)
  /\ (via = ViaFileNotFound \/ via = ViaPermissionError ->
     r = Return false
     /\ process sp' = match popen o with
                      | Raise _ => process sp
                      | Return _ => Some (length w)
                      end)
  /\ (forall p, process sp = Some p ->
      popen o = Raise FileNotFoundError \/ popen o = Raise PermissionError ->
      is_mpv_available (mpv_probe o) = Return true ->
      r = Return false /\ process sp' = Some p /\ w' = w).
Proof.
  unfold start_via.
  destruct (is_mpv_available (mpv_probe o)) as [[|]|e0] eqn:Hmpv.
  2,3: repeat split; intros; try intuition congruence.
  destruct (popen o) as [[]|e] eqn:Hpo.
  - destruct (poll _ (length w)) eqn:Hpoll.
    + destruct (stderr_read o) as [[]|e].
      * repeat split; intros; try intuition congruence.
      * destruct e; cbn; repeat split; intros; try intuition congruence.
    + repeat split; intros; try intuition congruence.
  - destruct e; cbn; repeat split; intros; try intuition congruence.
Qed.

(** ** The controller *)

(** C6. In [AIRPLAY] mode [start_streaming] returns [False]; controller,
    player and subprocess table are exactly as before, so no process was
    launched and the mode is still [AIRPLAY]. *)
Theorem start_streaming_refused_in_airplay
    (o : start_oracle) (c : AudioController.t) (w : world) :
  state c = AIRPLAY ->
  start_streaming o c w = (Return false, c, w) /\
  state (snd (fst (start_streaming o c w))) = AIRPLAY.
Proof.
  intros H. unfold start_streaming. destruct (decide (state c = AIRPLAY)); [|done].
  now split.
Qed.

Lemma start_streaming_refused_in_airplay_witness :
  start_streaming started
    (AudioController.mk (StreamPlayer.init "http://radio" 100) AIRPLAY) []
  = (Return false, AudioController.mk (StreamPlayer.init "http://radio" 100) AIRPLAY, []).
Proof.
  apply (start_streaming_refused_in_airplay started
           (AudioController.mk (StreamPlayer.init "http://radio" 100) AIRPLAY) []).
  reflexivity.
Defined.

(** C7. [handle_stream_exit] answers [False] in every mode other than
    [STREAMING], whatever the exit code, and for exit code 0 whatever the
    restart counter; in both cases the controller, and with it the restart
    counter, is unchanged. *)
Theorem handle_stream_exit_no_restart (return_code : Z) (c : AudioController.t) :
  state c <> STREAMING \/ return_code = 0 ->
  handle_stream_exit return_code c = (false, c) /\
  restart_count (stream_player (snd (handle_stream_exit return_code c)))
  = restart_count (stream_player c).
Proof.
  intros H. unfold handle_stream_exit.
  destruct (decide (state c <> STREAMING)) as [|Hs]; [now split|].
  destruct H as [H| ->]; [contradiction|]. now split.
Qed.

Lemma handle_stream_exit_no_restart_witness :
  handle_stream_exit 0
    (AudioController.mk (StreamPlayer.mk "http://radio" 100 (Some 0%nat) 9 10 3 false) STREAMING)
  = (false,
     AudioController.mk (StreamPlayer.mk "http://radio" 100 (Some 0%nat) 9 10 3 false) STREAMING).
Proof.
  apply (handle_stream_exit_no_restart 0
           (AudioController.mk (StreamPlayer.mk "http://radio" 100 (Some 0%nat) 9 10 3 false)
              STREAMING)).
  right. reflexivity.
Defined.

(** C5. [switch_to_airplay] returns [True] and ends in [AIRPLAY] from every
    mode; called again at once it returns [True] with controller, player
    and subprocess table unchanged. *)
Theorem switch_to_airplay_idempotent
    (graceful : option Z) (c : AudioController.t) (w : world) :
  let '(r1, c1, w1) := switch_to_airplay graceful c w in
  r1 = true /\ state c1 = AIRPLAY
  /\ forall graceful', switch_to_airplay graceful' c1 w1 = (true, c1, w1).
Proof.
  unfold switch_to_airplay.
  destruct (decide (state c = AIRPLAY)) as [Ha|Ha].
  - repeat split; auto. intros g'. now rewrite decide_True.
  - destruct (if decide (state c = STREAMING) then _ else _) as [c1 w1].
    repeat split.
Qed.

(** *** Restart bookkeeping *)

Lemma handle_stream_exit_abnormal (rc : Z) (c : AudioController.t) :
  state c = STREAMING -> rc <> 0 ->
  handle_stream_exit rc c =
  (negb (restart_count (stream_player c) + 1 >=? max_restart_attempts (stream_player c)),
   set_stream_player
     (set_restart_count (restart_count (stream_player c) + 1) (stream_player c)) c).
Proof.
  intros Hs Hrc. unfold handle_stream_exit.
  destruct (decide (state c <> STREAMING)); [contradiction|].
  apply Z.eqb_neq in Hrc. rewrite Hrc. cbn.
  now destruct (_ >=? _).
Qed.

Lemma handle_stream_exits_from (codes : list Z) :
  forall (c : AudioController.t) (n : nat),
    state c = STREAMING ->
    max_restart_attempts (stream_player c) = 10 ->
    restart_count (stream_player c) = Z.of_nat n ->
    Forall (fun rc => rc <> 0) codes ->
    fst (handle_stream_exits codes c)
    = (fun k => bool_decide (n + k < 10)%nat) <$> seq 1 (length codes)
    /\ restart_count (stream_player (snd (handle_stream_exits codes c)))
       = Z.of_nat (n + length codes)
    /\ state (snd (handle_stream_exits codes c)) = STREAMING.
Proof.
  induction codes as [|rc codes IH]; intros c n Hs Hm Hn Hall.
  - cbn. rewrite Nat.add_0_r. auto.
  - inversion Hall as [|? ? Hrc Hrest]; subst. cbn [handle_stream_exits].
    rewrite (handle_stream_exit_abnormal rc c Hs Hrc).
    set (c1 := set_stream_player _ c).
    destruct (IH c1 (S n)) as (Hbs & Hcnt & Hst); auto.
    { subst c1. cbn. lia. }
    destruct (handle_stream_exits codes c1) as [bs c2]. cbn in *.
    split; [|split; [lia|assumption]].
    f_equal.
    + rewrite Hm, Hn. case_bool_decide; destruct (_ >=? _) eqn:E; cbn; try reflexivity.
      * apply Z.geb_le in E. lia.
      * rewrite Z.geb_leb in E. apply Z.leb_gt in E. lia.
    + rewrite Hbs. rewrite <- (fmap_S_seq 1), <- list_fmap_compose.
      apply list_fmap_ext. intros _ k _. cbn.
      apply bool_decide_ext. lia.
Qed.

(** The maximum set by [__init__] is never changed. *)
Lemma apply_op_max_restart_attempts x c w :
  max_restart_attempts (stream_player (fst (apply_op x c w)))
  = max_restart_attempts (stream_player c).
Proof.
  destruct x; cbn [apply_op];
    unfold start_streaming, switch_to_streaming, start_streaming, start_streaming_launch,
      switch_to_airplay, shutdown, stop_streaming, handle_stream_exit,
      increment_restart_count, start, start_via, start_except, stop, is_playing, wait;
    repeat match goal with
           | |- context [match ?x with _ => _ end] =>
             lazymatch x with
             | context [match _ with _ => _ end] => fail
             | _ => destruct x; cbn
             end
           end;
    reflexivity.
Qed.

Lemma run_ops_max_restart_attempts ops : forall c w,
  max_restart_attempts (stream_player (fst (run_ops ops c w)))
  = max_restart_attempts (stream_player c).
Proof.
  induction ops as [|x ops IH]; intros c w; cbn [run_ops]; [reflexivity|].
  pose proof (apply_op_max_restart_attempts x c w) as Hx.
  destruct (apply_op x c w) as [c' w']. rewrite IH. exact Hx.
Qed.

(** C2. In [STREAMING] mode with the maximum at 10, an exit with a code
    other than 0 raises the restart counter by exactly one and
    [handle_stream_exit] answers [True] exactly when the raised counter is
    below 10.  From a counter of 0, consecutive such exits are therefore
    answered [True] nine times and [False] at the tenth.
    [reset_restart_count] puts the counter back to 0. *)
Theorem restart_budget (c : AudioController.t) :
  state c = STREAMING ->
  max_restart_attempts (stream_player c) = 10 ->
  (forall rc, rc <> 0 ->
     let '(b, c') := handle_stream_exit rc c in
     restart_count (stream_player c') = restart_count (stream_player c) + 1
     /\ (b = true <-> restart_count (stream_player c') < 10)
     /\ state c' = STREAMING)
  /\ (restart_count (stream_player c) = 0 ->
      forall codes, Forall (fun rc => rc <> 0) codes ->
        let '(bs, c') := handle_stream_exits codes c in
        bs = (fun k => bool_decide (k < 10)%nat) <$> seq 1 (length codes)
        /\ restart_count (stream_player c') = Z.of_nat (length codes)
        /\ (length codes = 10%nat ->
            bs = [true; true; true; true; true; true; true; true; true; false]))
  /\ (forall sp, restart_count (reset_restart_count sp) = 0).
Proof.
  intros Hs Hm. split; [|split].
  - intros rc Hrc. rewrite (handle_stream_exit_abnormal rc c Hs Hrc). cbn.
    split; [reflexivity|]. split; [|assumption].
    rewrite Hm. destruct (_ >=? _) eqn:E; cbn.
    + apply Z.geb_le in E. split; [discriminate|lia].
    + rewrite Z.geb_leb in E. apply Z.leb_gt in E. split; [lia|reflexivity].
  - intros H0 codes Hall.
    destruct (handle_stream_exits_from codes c 0 Hs Hm H0 Hall) as (Hbs & Hcnt & _).
    destruct (handle_stream_exits codes c) as [bs c']. cbn in *.
    split; [assumption|]. split; [assumption|].
    intros Hlen. rewrite Hbs, Hlen. reflexivity.
  - reflexivity.
Qed.

Lemma restart_budget_witness :
  fst (handle_stream_exits [1; 1; 2; 1; 7; 1; 1; -1; 1; 1]
         (AudioController.mk (StreamPlayer.mk "u" 100 (Some 0%nat) 0 10 3 true) STREAMING))
  = [true; true; true; true; true; true; true; true; true; false].
Proof.
  pose proof (restart_budget
    (AudioController.mk (StreamPlayer.mk "u" 100 (Some 0%nat) 0 10 3 true) STREAMING)
    eq_refl eq_refl) as (_ & H & _).
  specialize (H eq_refl [1; 1; 2; 1; 7; 1; 1; -1; 1; 1]).
  destruct (handle_stream_exits _ _) as [bs c'].
  apply H; [|reflexivity].
  repeat constructor; discriminate.
Defined.

(** *** Mutual exclusion of AirPlay and a live player *)


Lemma quiet_owned c w : quiet w -> owned c w.
Proof. intros Hq p Hp. destruct (Hq p Hp). Qed.

Lemma owned_quiet c w : owned c w -> state c <> STREAMING -> quiet w.
Proof. intros Ho Hs p Hp. destruct (Ho p Hp) as (_ & ? & _). contradiction. Qed.

Lemma quiet_process_exits p code w : quiet w -> quiet (process_exits p code w).
Proof. intros Hq q Hq'. eapply Hq, alive_process_exits, Hq'. Qed.

Lemma alive_spawn (w : world) q :
  quiet w -> alive (w ++ [Running]) q -> q = length w.
Proof.
  intros Hq Ha. unfold alive in Ha.
  destruct (decide (q < length w)%nat) as [Hlt|Hge].
  - rewrite lookup_app_l in Ha by assumption. destruct (Hq q Ha).
  - apply lookup_lt_Some in Ha. rewrite length_app in Ha. cbn in Ha. lia.
Qed.

Lemma start_owned (o : start_oracle) (sp : StreamPlayer.t) (w : world) :
  quiet w ->
  let '(r, sp', w') := start o sp w in
  forall p, alive w' p ->
    r = Return true /\ process sp' = Some p /\ _is_playing sp' = true.
Proof.
  intros Hq. unfold start, start_via.
  destruct (is_mpv_available (mpv_probe o)) as [[|]|e0];
    try (intros p Hp; destruct (Hq p Hp)).
  destruct (popen o) as [[]|e].
  2: { destruct (start_except e sp) as [[via r] sp'].
       intros p Hp; destruct (Hq p Hp). }
  set (w1 := match early_exit o with Some _ => _ | None => _ end).
  assert (Hw1 : forall q, alive w1 q -> q = length w /\ poll w1 (length w) = None).
  { intros q Hq1. subst w1. destruct (early_exit o) as [code|].
    - pose proof (alive_process_exits _ _ _ _ Hq1) as Hq2.
      apply alive_spawn in Hq2; [subst q|assumption].
      destruct (not_alive_process_exits _ _ _ Hq1).
    - pose proof (alive_spawn _ _ Hq Hq1). subst q.
      split; [reflexivity|]. now apply poll_None_alive. }
  destruct (poll w1 (length w)) eqn:Hpoll.
  - destruct (stderr_read o) as [[]|e]; [|destruct (start_except e _) as [[via r] sp']];
      intros p Hp; destruct (Hw1 p Hp); discriminate.
  - intros p Hp. destruct (Hw1 p Hp) as [-> _]. auto.
Qed.

Lemma start_streaming_launch_owned o c w :
  quiet w ->
  let '(_, c', w') := start_streaming_launch o c w in owned c' w'.
Proof.
  intros Hq. unfold start_streaming_launch.
  pose proof (start_owned o (stream_player (set_state TRANSITIONING c)) w Hq) as H.
  destruct (start o _ w) as [[r sp'] w'].
  destruct r as [[|]|e]; intros p Hp; destruct (H p Hp) as (Hr & Hpr & Hpl);
    try discriminate.
  cbn. auto.
Qed.

Lemma is_playing_false_quiet c w :
  owned c w -> fst (is_playing (stream_player c) w) = false -> quiet w.
Proof.
  intros Ho Hf p Hp. destruct (Ho p Hp) as (Hpr & _ & Hpl).
  unfold is_playing in Hf. rewrite Hpr in Hf.
  apply poll_None_alive in Hp. rewrite Hp in Hf. cbn in Hf. congruence.
Qed.

Lemma is_playing_true_same sp w :
  fst (is_playing sp w) = true -> snd (is_playing sp w) = sp.
Proof.
  unfold is_playing. destruct (process sp); [|discriminate].
  destruct (poll w n); [discriminate|reflexivity].
Qed.

Lemma set_stream_player_same c : set_stream_player (stream_player c) c = c.
Proof. now destruct c. Qed.

Lemma start_streaming_owned o c w :
  owned c w ->
  let '(_, c', w') := start_streaming o c w in owned c' w'.
Proof.
  intros Ho. unfold start_streaming.
  destruct (decide (state c = AIRPLAY)); [assumption|].
  destruct (decide (state c = STREAMING)) as [Hs|Hs].
  - pose proof (is_playing_false_quiet c w Ho) as Hf.
    pose proof (is_playing_true_same (stream_player c) w) as Ht.
    destruct (is_playing (stream_player c) w) as [[|] sp']; cbn in *.
    + rewrite Ht by reflexivity. now rewrite set_stream_player_same.
    + apply start_streaming_launch_owned. auto.
  - apply start_streaming_launch_owned. eapply owned_quiet; eauto.
Qed.

Lemma stop_quiet g c w :
  owned c w -> quiet (snd (stop g (stream_player c) w)).
Proof.
  intros Ho. unfold stop. destruct (process (stream_player c)) as [p|] eqn:Hp; cbn.
  - intros q Hq.
    assert (alive w q) as Hq' by (destruct g; eapply alive_process_exits; eauto).
    destruct (Ho q Hq') as (Hpr & _). assert (q = p) by congruence. subst q.
    destruct g; eapply not_alive_process_exits; eauto.
  - intros q Hq. destruct (Ho q Hq) as (Hpr & _). congruence.
Qed.

Lemma stop_streaming_quiet g c w :
  owned c w -> quiet (snd (stop_streaming g c w)).
Proof.
  intros Ho. unfold stop_streaming.
  destruct (decide (state c = STREAMING)) as [Hs|Hs].
  - pose proof (stop_quiet g c w Ho). destruct (stop g _ w). assumption.
  - destruct (decide (state c = TRANSITIONING)); cbn; eapply owned_quiet; eauto.
Qed.

Lemma switch_to_airplay_quiet g c w :
  owned c w ->
  let '(_, c', w') := switch_to_airplay g c w in
  (state c = AIRPLAY /\ c' = c /\ w' = w) \/ quiet w'.
Proof.
  intros Ho. unfold switch_to_airplay.
  destruct (decide (state c = AIRPLAY)); [auto|].
  destruct (decide (state c = STREAMING)) as [Hs|Hs].
  - pose proof (stop_streaming_quiet g c w Ho).
    destruct (stop_streaming g c w). auto.
  - right. eapply owned_quiet; eauto.
Qed.

Lemma switch_to_streaming_owned o c w :
  owned c w ->
  let '(_, c', w') := switch_to_streaming o c w in owned c' w'.
Proof.
  intros Ho. unfold switch_to_streaming.
  destruct (decide (state c = STREAMING)) as [Hs|Hs].
  - pose proof (is_playing_false_quiet c w Ho) as Hf.
    pose proof (is_playing_true_same (stream_player c) w) as Ht.
    destruct (is_playing (stream_player c) w) as [[|] sp']; cbn in *.
    + rewrite Ht by reflexivity. now rewrite set_stream_player_same.
    + apply start_streaming_owned. apply quiet_owned. auto.
  - destruct (decide (state c = AIRPLAY)).
    + apply start_streaming_owned. apply quiet_owned. eapply owned_quiet; eauto.
    + apply start_streaming_owned. assumption.
Qed.

Lemma apply_op_owned x c w :
  owned c w -> let '(c', w') := apply_op x c w in owned c' w'.
Proof.
  intros Ho. destruct x; cbn [apply_op].
  - pose proof (start_streaming_owned o c w Ho).
    now destruct (start_streaming o c w) as [[? ?] ?].
  - pose proof (stop_streaming_quiet graceful c w Ho).
    destruct (stop_streaming graceful c w). now apply quiet_owned.
  - pose proof (switch_to_airplay_quiet graceful c w Ho) as H.
    destruct (switch_to_airplay graceful c w) as [[? c'] w'].
    destruct H as [(_ & -> & ->)|H]; [assumption|now apply quiet_owned].
  - pose proof (switch_to_streaming_owned o c w Ho).
    now destruct (switch_to_streaming o c w) as [[? ?] ?].
  - unfold handle_stream_exit.
    destruct (decide (state c <> STREAMING)); [assumption|].
    destruct (return_code =? 0); [assumption|].
    cbn. intros p Hp. destruct (Ho p Hp) as (? & ? & ?).
    destruct (_ >=? _); cbn; auto.
  - unfold shutdown. pose proof (stop_streaming_quiet graceful c w Ho).
    destruct (stop_streaming graceful c w). now apply quiet_owned.
  - intros p Hp. destruct (Ho p Hp) as (Hpr & Hs & Hpl). cbn.
    unfold is_playing. rewrite Hpr. apply poll_None_alive in Hp. rewrite Hp. auto.
  - unfold wait. destruct (process (stream_player c)) as [p|] eqn:Hpr.
    + apply quiet_owned. intros q Hq.
      pose proof (alive_process_exits _ _ _ _ Hq) as Hq'.
      destruct (Ho q Hq') as (Hpr' & _). assert (q = p) by congruence. subst q.
      eapply not_alive_process_exits; eauto.
    + now rewrite set_stream_player_same.
  - intros p Hp. destruct (Ho p Hp) as (? & ? & ?). cbn. auto.
  - intros q Hq. apply Ho. eapply alive_process_exits; eauto.
Qed.

Lemma run_ops_owned ops : forall c w,
  owned c w -> let '(c', w') := run_ops ops c w in owned c' w'.
Proof.
  induction ops as [|x ops IH]; intros c w Ho; cbn; [assumption|].
  pose proof (apply_op_owned x c w Ho). destruct (apply_op x c w) as [c1 w1].
  now apply IH.
Qed.

(** C3. After any sequence of controller operations, player calls and
    subprocess exits, run from a freshly constructed controller with no
    subprocess, [AIRPLAY] mode means that no playback subprocess is alive. *)
Theorem airplay_excludes_live_player
    (url : string) (vol : Z) (ops : list op) (c : AudioController.t) (w : world) :
  run_ops ops (AudioController.init url vol) [] = (c, w) ->
  state c = AIRPLAY -> forall p, ~ alive w p.
Proof.
  assert (owned (AudioController.init url vol) []) as H0.
  { intros q Hq. unfold alive in Hq. rewrite lookup_nil in Hq. discriminate. }
  pose proof (run_ops_owned ops (AudioController.init url vol) [] H0) as H.
  intros Hrun Ha p Hp. rewrite Hrun in H.
  destruct (H p Hp) as (_ & Hs & _). congruence.
Qed.

Lemma airplay_excludes_live_player_witness :
  ~ alive [Exited (-15)] 0.
Proof.
  apply (airplay_excludes_live_player "http://radio" 100
           [OpStartStreaming started; OpSwitchToAirplay (Some (-15))]
           (AudioController.mk (StreamPlayer.mk "http://radio" 100 None 0 10 3 false) AIRPLAY)
           [Exited (-15)]).
  - reflexivity.
  - reflexivity.
Defined.

(** ** The event reader *)

Import AirPlayManager.

Lemma lower_ascii (unicode_lower : N -> list N) (s : pystr) :
  Forall is_ascii s -> lower unicode_lower s = ascii_lower <$> s.
Proof.
  induction 1 as [|cp s Hcp _ IH]; [reflexivity|].
  unfold lower in *. cbn. rewrite IH.
  apply N.ltb_lt in Hcp. now rewrite Hcp.
Qed.

Lemma read_event_cases (unicode_lower : N -> list N) (read : outcome (list Byte.byte)) :
  forall r, read_event unicode_lower read = Return r ->
    r = None \/ r = Some (py "connect") \/ r = Some (py "disconnect").
Proof.
  intros r. unfold read_event.
  destruct read as [pipe|e]; [|discriminate].
  destruct (decode_utf8 (take 64 pipe)) as [text|]; [|discriminate].
  destruct (strip text) as [|cp data] eqn:Hs.
  - intros [= <-]. auto.
  - case_bool_decide as Hin.
    + intros [= <-]. rewrite !elem_of_cons in Hin.
      destruct Hin as [Hin|[Hin|Hin]]; [right; left|right; right|inversion Hin];
        f_equal; exact Hin.
    + intros [= <-]. auto.
Qed.

Lemma read_event_Some (unicode_lower : N -> list N) (read : outcome (list Byte.byte)) e :
  read_event unicode_lower read = Return (Some e) <->
  exists pipe text,
    read = Return pipe /\ decode_utf8 (take 64 pipe) = Some text
    /\ lower unicode_lower (strip text) = e
    /\ (e = py "connect" \/ e = py "disconnect").
Proof.
  unfold read_event. split.
  - destruct read as [pipe|e0]; [|discriminate].
    destruct (decode_utf8 (take 64 pipe)) as [text|] eqn:Hd; [|discriminate].
    destruct (strip text) as [|cp data] eqn:Hs; [discriminate|].
    case_bool_decide as Hin; [|discriminate].
    intros [= <-]. exists pipe, text. rewrite Hs. repeat split; auto.
    rewrite !elem_of_cons in Hin. destruct Hin as [?|[?|Hin]]; auto. inversion Hin.
  - intros (pipe & text & -> & -> & <- & He).
    destruct (strip text) as [|cp data] eqn:Hs.
    + destruct He as [He|He]; discriminate He.
    + rewrite bool_decide_eq_true_2; [reflexivity|].
      rewrite !elem_of_cons. tauto.
Qed.

(** The decoder on well-formed and on malformed input: two-, three- and
    four-byte sequences; an overlong form, a surrogate, a stray byte and a
    truncated sequence. *)
Example decode_utf8_multibyte :
  decode_utf8_N [0xC3; 0xA9; 0xE2; 0x82; 0xAC; 0xF0; 0x9F; 0x98; 0x80]%N
  = Some [0xE9; 0x20AC; 0x1F600]%N.
Proof. reflexivity. Qed.

Example decode_utf8_malformed :
  decode_utf8_N [0xC0; 0x80]%N = None /\ decode_utf8_N [0xED; 0xA0; 0x80]%N = None
  /\ decode_utf8_N [0xFF]%N = None /\ decode_utf8_N [0xE2; 0x82]%N = None.
Proof. repeat split. Qed.

(** A message in mixed case with surrounding white space is recognised,
    whatever the lower-case table says above ASCII; an unknown word and a
    malformed byte are not. *)
Example check_event_mixed_case (unicode_lower : N -> list N) :
  let o text :=
    {| reopen := {| path_exists := true; os_open := Some 5 |};
       select := Return true;
       os_read := Return text;
       os_close := Return tt;
       path_exists_after := true;
       reopen_after := {| path_exists := true; os_open := Some 5 |} |} in
  let newline := String (ascii_of_nat 10) EmptyString in
  check_event unicode_lower (o (bytes_of (" CoNNect" ++ newline))) AirPlayManager.init
  = (Return (Some (py "connect")), AirPlayManager.mk (Some 5) false)
  /\ check_event unicode_lower (o (bytes_of ("DISCONNECT" ++ newline)))
       (AirPlayManager.mk (Some 4) false)
     = (Return (Some (py "disconnect")), AirPlayManager.mk (Some 4) false)
  /\ check_event unicode_lower (o (bytes_of "foo")) (AirPlayManager.mk (Some 4) false)
     = (Return None, AirPlayManager.mk (Some 4) false)
  /\ check_event unicode_lower (o [Byte.xff]) (AirPlayManager.mk (Some 4) false)
     = (Return None, AirPlayManager.mk (Some 4) false).
Proof. repeat split. Qed.

(** C8 (as amended). [check_event] never raises and returns ['connect'],
    ['disconnect'] or [None].  It returns an event exactly when a
    descriptor is held, it is ready, the at most 64 bytes read decode as
    UTF-8, and the decoded text, stripped and lower-cased, is that event;
    on ASCII text lower-casing is the folding of [A]-[Z], so recognition
    ignores case.  A failed decoding and an exception of the read give
    [None] and leave the descriptor open.  An [OSError] of the readiness
    wait gives [None] after the reader has closed the descriptor and, if
    the pipe still exists, reopened it; any other exception of the wait
    gives [None] with the reader unchanged. *)
Theorem check_event_classifies
    (unicode_lower : N -> list N) (o : event_oracle) (m : AirPlayManager.t) :
  let '(usable, m1) := ensure_open o m in
  let '(r, m') := check_event unicode_lower o m in
  (exists ev, r = Return ev
     /\ (ev = None \/ ev = Some (py "connect") \/ ev = Some (py "disconnect")))
  /\ (forall e, r = Return (Some e) <->
        usable = true /\ select o = Return true
        /\ exists pipe text,
             os_read o = Return pipe /\ decode_utf8 (take 64 pipe) = Some text
             /\ lower unicode_lower (strip text) = e
             /\ (e = py "connect" \/ e = py "disconnect"))
  /\ (forall text, Forall is_ascii text ->
        lower unicode_lower text = ascii_lower <$> text)
  /\ (usable = true -> select o = Return true ->
        (forall pipe, os_read o = Return pipe -> decode_utf8 (take 64 pipe) = None ->
           r = Return None /\ m' = m1)
        /\ (forall e, os_read o = Raise e -> r = Return None /\ m' = m1))
  /\ (usable = true -> forall e, select o = Raise e ->
        r = Return None
        /\ m' = if is_OSError e then close_and_reopen o m1 else m1).
Proof.
  unfold check_event. destruct (ensure_open o m) as [usable m1].
  pose proof (read_event_cases unicode_lower (os_read o)) as Hc.
  pose proof (read_event_Some unicode_lower (os_read o)) as Hs.
  assert (Hd : forall pipe, os_read o = Return pipe ->
                 decode_utf8 (take 64 pipe) = None ->
                 read_event unicode_lower (os_read o) = Raise UnicodeDecodeError).
  { intros pipe Hr Hd. unfold read_event. now rewrite Hr, Hd. }
  assert (He : forall e, os_read o = Raise e ->
                 read_event unicode_lower (os_read o) = Raise e).
  { intros e Hr. unfold read_event. now rewrite Hr. }
  destruct usable; cbn [negb].
  2: { split; [eauto|]. split; [|split; [apply lower_ascii|split; discriminate]].
       intros e. split; [discriminate|]. intros (? & _); discriminate. }
  destruct (select o) as [[|]|e0].
  - destruct (read_event unicode_lower (os_read o)) as [ev|e1] eqn:Hre.
    + split; [eauto|]. split; [|split; [apply lower_ascii|split]].
      * intros e. split.
        -- intros [= ->]. split; [reflexivity|]. split; [reflexivity|]. now apply Hs.
        -- intros (_ & _ & H). apply Hs in H. congruence.
      * intros _ _. split.
        -- intros pipe Hr Hdec. specialize (Hd pipe Hr Hdec). discriminate.
        -- intros e Hr. specialize (He e Hr). discriminate.
      * intros _ e. discriminate.
    + assert ((let '(r, m') :=
                 match e1 with
                 | UnicodeDecodeError => (Return None, m1)
                 | _ => (@Return (option pystr) None, m1)
                 end in r = Return None /\ m' = m1)) as Hnone by now destruct e1.
      destruct (match e1 with UnicodeDecodeError => _ | _ => _ end) as [r m'].
      destruct Hnone as [-> ->].
      split; [eauto|]. split; [|split; [apply lower_ascii|split]].
      * intros e. split; [discriminate|].
        intros (_ & _ & H). apply Hs in H. discriminate.
      * intros _ _. split; auto.
      * intros _ e. discriminate.
  - split; [eauto|]. split; [|split; [apply lower_ascii|split]].
    + intros e. split; [discriminate|]. intros (_ & ? & _); discriminate.
    + intros _. discriminate.
    + intros _ e. discriminate.
  - assert ((if is_OSError e0 then (@Return (option pystr) None, close_and_reopen o m1)
             else (Return None, m1))
            = (Return None, if is_OSError e0 then close_and_reopen o m1 else m1)) as ->
      by now destruct (is_OSError e0).
    split; [eauto|]. split; [|split; [apply lower_ascii|split]].
    + intros e. split; [discriminate|]. intros (_ & ? & _); discriminate.
    + intros _. discriminate.
    + intros _ e [= <-]. auto.
Qed.

(** C8 (as stated) fails: an [OSError] raised by [os.read] on the open
    descriptor 3 is caught by the inner handler, which only logs it.  The
    reader still holds descriptor 3; closing and reopening would have
    left it with descriptor 7. *)
Lemma check_event_read_error_keeps_descriptor :
  let o := {| reopen := {| path_exists := true; os_open := Some 7 |};
              select := Return true;
              os_read := Raise OSError;
              os_close := Return tt;
              path_exists_after := true;
              reopen_after := {| path_exists := true; os_open := Some 7 |} |} in
  let m := AirPlayManager.mk (Some 3) false in
  check_event (fun cp => [cp]) o m = (Return None, m)
  /\ pipe_fd (snd (check_event (fun cp => [cp]) o m)) = Some 3
  /\ pipe_fd (close_and_reopen o m) = Some 7
  /\ snd (check_event (fun cp => [cp]) o m) <> close_and_reopen o m.
Proof. cbn. repeat split. discriminate. Qed.

(** ** Status publication and the supervision loop *)

Import Player.

Lemma start_streaming_leaves_transitioning o c w b c' w' :
  start_streaming o c w = (Return b, c', w') -> state c' <> TRANSITIONING.
Proof.
  unfold start_streaming.
  assert (Hl : forall c0, start_streaming_launch o c0 w = (Return b, c', w') ->
                 state c' <> TRANSITIONING).
  { intros c0. unfold start_streaming_launch.
    destruct (start o _ w) as [[r sp'] w1]. destruct r as [[|]|e]; [| |discriminate];
      intros [= _ <- _]; discriminate. }
  destruct (decide (state c = AIRPLAY)) as [Ha|Ha].
  { intros [= _ <- _]. congruence. }
  destruct (decide (state c = STREAMING)) as [Hs|Hs]; [|apply Hl].
  destruct (is_playing (stream_player c) w) as [[|] sp']; [|apply Hl].
  intros [= _ <- _]. cbn. congruence.
Qed.

Lemma switch_to_streaming_leaves_transitioning o c w b c' w' :
  switch_to_streaming o c w = (Return b, c', w') -> state c' <> TRANSITIONING.
Proof.
  unfold switch_to_streaming.
  destruct (decide (state c = STREAMING)) as [Hs|Hs].
  - destruct (is_playing (stream_player c) w) as [[|] sp'].
    + intros [= _ <- _]. cbn. congruence.
    + apply start_streaming_leaves_transitioning.
  - apply start_streaming_leaves_transitioning.
Qed.

Lemma switch_to_airplay_state g c w :
  state (snd (fst (switch_to_airplay g c w))) = AIRPLAY.
Proof.
  unfold switch_to_airplay.
  destruct (decide (state c = AIRPLAY)); [assumption|].
  now destruct (if decide (state c = STREAMING) then _ else _).
Qed.

Section Publication.

Variable unicode_lower : N -> list N.

Lemma write_state_file_steps_spec o state d :
  Forall (fun snap => state_file snap = state_file d
                      \/ state_file snap = Some (state_str unicode_lower state ++ [10%N]))
         (write_state_file_steps unicode_lower o state d)
  /\ (state_file (write_state_file unicode_lower o state d) = state_file d
      \/ state_file (write_state_file unicode_lower o state d)
         = Some (state_str unicode_lower state ++ [10%N])).
Proof.
  unfold write_state_file.
  destruct o; cbn; (split; [|auto]);
    repeat first [apply List.Forall_nil | apply List.Forall_cons; [cbn; auto|]].
Qed.

Lemma state_str_token (s : AudioState) :
  s <> TRANSITIONING -> token_line (state_str unicode_lower (inl s) ++ [10%N]).
Proof. unfold token_line. destruct s; cbn; auto. contradiction. Qed.

Lemma state_str_idle : token_line (state_str unicode_lower (inr (py "idle")) ++ [10%N]).
Proof. unfold token_line. right; right. reflexivity. Qed.


Lemma publish_ok dir0 o s d :
  token_line (state_str unicode_lower s ++ [10%N]) ->
  published_ok dir0 d -> published_ok dir0 (publish unicode_lower o s d).
Proof.
  intros Ht [Hobs Hdir]. unfold published_ok, publish. cbn.
  destruct (write_state_file_steps_spec o s (dir d)) as [Hsteps Hlast].
  assert (forall snap, state_file snap = state_file (dir d)
            \/ state_file snap = Some (state_str unicode_lower s ++ [10%N]) ->
            untouched_or_token dir0 snap) as Hup.
  { intros snap [H|H]; unfold untouched_or_token in *.
    - rewrite H. exact Hdir.
    - right. eauto. }
  split; [|auto].
  apply Forall_app. split; [assumption|].
  eapply Forall_impl; [exact Hsteps|]. auto.
Qed.

Lemma publish_controller o s d :
  audio_controller (publish unicode_lower o s d) = audio_controller d.
Proof. reflexivity. Qed.

Lemma set_controller_ok dir0 c w d :
  published_ok dir0 d -> published_ok dir0 (set_controller c w d).
Proof. auto. Qed.

Lemma signal_handler_ok dir0 so d :
  published_ok dir0 d -> published_ok dir0 (signal_handler unicode_lower so d).
Proof.
  intros H. unfold signal_handler.
  pose proof (publish_ok dir0 (shutdown_write so) _ d state_str_idle H) as H1.
  destruct (shutdown _ _ _) as [c' w']. exact H1.
Qed.

Lemma handle_event_ok dir0 o d :
  settled dir0 d ->
  published_ok dir0 (snd (handle_event unicode_lower o d))
  /\ (forall x, fst (handle_event unicode_lower o d) = Return x ->
        settled dir0 (snd (handle_event unicode_lower o d))).
Proof.
  intros [Hok Hst]. unfold handle_event.
  destruct (airplay_manager d) as [m|]; [|now cbn].
  destruct (check_event unicode_lower (event o) m) as [r m'].
  set (d1 := set_airplay_manager (Some m') d).
  assert (settled dir0 d1) as [Hok1 Hst1] by (split; auto).
  destruct r as [[ev|]|e]; [|now cbn|split; [auto|discriminate]].
  case_bool_decide.
  { pose proof (switch_to_airplay_state (airplay_stop o) (audio_controller d1) (procs d1)) as Ha.
    destruct (switch_to_airplay _ _ _) as [[r c'] w']. cbn in Ha. cbn [fst snd].
    assert (published_ok dir0
              (publish unicode_lower (write_event o) (inl (get_state c')) (set_controller c' w' d1)))
      as Hp.
    { apply publish_ok; [|auto]. apply state_str_token. unfold get_state. congruence. }
    split; [exact Hp|]. intros _ _. split; [exact Hp|]. cbn. congruence. }
  case_bool_decide; [|now cbn].
  pose proof (switch_to_streaming_leaves_transitioning
                (streaming_start o) (audio_controller d1) (procs d1)) as Hs.
  destruct (switch_to_streaming _ _ _) as [[r c'] w'].
  destruct r as [b|e]; cbn [fst snd].
  - assert (published_ok dir0
              (publish unicode_lower (write_event o) (inl (get_state c')) (set_controller c' w' d1)))
      as Hp.
    { apply publish_ok; [|auto]. apply state_str_token. eapply Hs; eauto. }
    split; [exact Hp|]. intros _ _. split; [exact Hp|]. cbn. eapply Hs; eauto.
  - split; [auto|discriminate].
Qed.

Lemma publish_change_ok dir0 o d :
  settled dir0 d ->
  settled dir0 (snd (publish_change unicode_lower o d))
  /\ fst (publish_change unicode_lower o d)
     = state (audio_controller (snd (publish_change unicode_lower o d))).
Proof.
  intros [Hok Hst]. unfold publish_change.
  case_bool_decide; cbn [fst snd]; [|split; [split; assumption|reflexivity]].
  split; [|reflexivity]. split; [|exact Hst].
  apply (publish_ok dir0 (write_change o) (inl (get_state (audio_controller d))) d);
    [|exact Hok].
  now apply state_str_token.
Qed.

Lemma handle_stream_exit_state rc c :
  state (snd (handle_stream_exit rc c)) = state c.
Proof.
  unfold handle_stream_exit.
  destruct (decide (state c <> STREAMING)); [reflexivity|].
  destruct (rc =? 0); [reflexivity|]. cbn.
  now destruct (_ >=? _).
Qed.

Lemma supervise_ok dir0 o d :
  settled dir0 d ->
  published_ok dir0 (snd (supervise unicode_lower o (state (audio_controller d)) d))
  /\ (forall k, fst (supervise unicode_lower o (state (audio_controller d)) d) = Return k ->
        settled dir0 (snd (supervise unicode_lower o (state (audio_controller d)) d))).
Proof.
  intros [Hok Hst]. unfold supervise.
  assert (Hidle : forall c w,
    let r := let '(r, c1, w1) := start_streaming (second_start o) c w in
             match r with
             | Raise e => (Raise e, set_controller c1 w1 d)
             | Return _ =>
               (Return Continue,
                publish unicode_lower (write_after o) (inl (get_state c1))
                  (set_controller c1 w1 d))
             end in
    published_ok dir0 (snd r) /\ (forall k, fst r = Return k -> settled dir0 (snd r))).
  { intros c w.
    pose proof (start_streaming_leaves_transitioning (second_start o) c w) as Hs.
    destruct (start_streaming (second_start o) c w) as [[r c1] w1].
    destruct r as [b|e]; cbn; [|split; [exact Hok|discriminate]].
    assert (published_ok dir0
              (publish unicode_lower (write_after o) (inl (get_state c1))
                 (set_controller c1 w1 d))) as Hp.
    { apply publish_ok; [|exact Hok]. apply state_str_token. eapply Hs; eauto. }
    split; [exact Hp|]. intros _ _. split; [exact Hp|]. cbn. eapply Hs; eauto. }
  destruct (state (audio_controller d)) eqn:Hstate; [| |apply Hidle|apply Hidle].
  2: { cbn. split; [exact Hok|]. intros _ _. split; [exact Hok|congruence]. }
  destruct (is_playing (stream_player (audio_controller d)) (procs d)) as [[|] sp1].
  { cbn. split; [exact Hok|]. intros _ _. split; [exact Hok|]. cbn. congruence. }
  destruct (wait (wait_code o) sp1 (procs d)) as [[return_code sp2] w2].
  set (c2 := set_stream_player sp2 _).
  pose proof (handle_stream_exit_state return_code c2) as Hh.
  destruct (handle_stream_exit return_code c2) as [[|] c3]; cbn in Hh.
  2: { cbn. split; [exact Hok|]. intros _ _. split; [exact Hok|]. cbn. rewrite Hh. cbn.
       congruence. }
  set (c4 := set_state IDLE c3).
  set (d4 := publish unicode_lower (write_idle o) _ _).
  assert (published_ok dir0 d4) as Hok4.
  { apply publish_ok; [|exact Hok]. now apply state_str_token. }
  pose proof (start_streaming_leaves_transitioning (second_start o) c4 w2) as Hs.
  destruct (start_streaming (second_start o) c4 w2) as [[r c5] w5].
  destruct r as [[|]|e]; cbn [fst snd]; [| |split; [exact Hok4|discriminate]].
  - set (c6 := set_stream_player _ c5).
    assert (state c6 <> TRANSITIONING) as H6 by (cbn; eapply Hs; eauto).
    assert (published_ok dir0
              (publish unicode_lower (write_after o) (inl (get_state c6))
                 (set_controller c6 w5 d4))) as Hp.
    { apply publish_ok; [|exact Hok4]. now apply state_str_token. }
    split; [exact Hp|]. intros _ _. split; [exact Hp|exact H6].
  - assert (state c5 <> TRANSITIONING) as H5 by (eapply Hs; eauto).
    assert (published_ok dir0
              (publish unicode_lower (write_after o) (inl (get_state c5))
                 (set_controller c5 w5 d4))) as Hp.
    { apply publish_ok; [|exact Hok4]. now apply state_str_token. }
    split; [exact Hp|]. intros _ _. split; [exact Hp|exact H5].
Qed.

Lemma loop_iteration_ok dir0 o d :
  settled dir0 d ->
  published_ok dir0 (snd (loop_iteration unicode_lower o d))
  /\ (fst (loop_iteration unicode_lower o d) = Continue ->
      settled dir0 (snd (loop_iteration unicode_lower o d))).
Proof.
  intros Hd. unfold loop_iteration.
  set (d0 := set_controller _ _ d).
  assert (settled dir0 d0) as Hd0 by exact Hd.
  destruct (handle_event_ok dir0 o d0 Hd0) as [Hok1 Hst1].
  destruct (handle_event unicode_lower o d0) as [[x|e] d1]; cbn [fst snd] in *.
  2: { split; [now apply signal_handler_ok|discriminate]. }
  specialize (Hst1 x eq_refl).
  destruct (publish_change_ok dir0 o d1 Hst1) as [Hst2 Hcur].
  destruct (publish_change unicode_lower o d1) as [current_state d2]; cbn [fst snd] in *.
  set (d3 := set_controller _ _ d2).
  assert (settled dir0 d3) as Hd3 by exact Hst2.
  assert (current_state = state (audio_controller d3)) as -> by exact Hcur.
  destruct (supervise_ok dir0 o d3 Hd3) as [Hok4 Hst4].
  destruct (supervise unicode_lower o _ d3) as [[k|e] d4]; cbn [fst snd] in *.
  - split; [exact Hok4|]. intros _. now apply (Hst4 k).
  - split; [now apply signal_handler_ok|discriminate].
Qed.

Lemma main_loop_ok dir0 os : forall d,
  settled dir0 d ->
  published_ok dir0 (snd (main_loop unicode_lower os d))
  /\ (fst (main_loop unicode_lower os d) = Continue ->
      settled dir0 (snd (main_loop unicode_lower os d))).
Proof.
  induction os as [|o os IH]; intros d Hd; cbn [main_loop].
  - split; [apply Hd|auto].
  - destruct (loop_iteration_ok dir0 o d Hd) as [Hok Hst].
    destruct (loop_iteration unicode_lower o d) as [[| |code] d']; cbn [fst snd] in *.
    + now apply IH, Hst.
    + split; [exact Hok|discriminate].
    + split; [exact Hok|discriminate].
Qed.

Lemma main_ok url vol manager dir0 first_start first_write os signal :
  published_ok dir0
    (snd (main unicode_lower url vol manager dir0 first_start first_write os signal)).
Proof.
  unfold main. cbn [audio_controller procs].
  pose proof (start_streaming_leaves_transitioning first_start
                (AudioController.init url vol) []) as Hs.
  destruct (start_streaming first_start _ []) as [[r c'] w'].
  assert (published_ok dir0
            (set_controller c' w'
               (Player.mk (AudioController.init url vol) manager None [] dir0 []))) as H0.
  { split; [constructor|now left]. }
  destruct r as [[|]|e]; cbn [snd]; [|exact H0|exact H0].
  set (d2 := publish _ _ _ _).
  assert (settled dir0 d2) as Hd2.
  { split; [|cbn; eapply Hs; eauto].
    apply publish_ok; [|exact H0]. apply state_str_token. eapply Hs; eauto. }
  destruct (main_loop_ok dir0 os d2 Hd2) as [Hok Hst].
  destruct (main_loop unicode_lower os d2) as [[| |code] d3]; cbn [fst snd] in *.
  - destruct signal as [so|]; cbn [snd]; [now apply signal_handler_ok|exact Hok].
  - now destruct signal.
  - now destruct signal.
Qed.

Lemma read_state_token (snap : status_dir) s :
  state_file snap = Some s -> token_line s ->
  read_state unicode_lower snap = Some (py "streaming")
  \/ read_state unicode_lower snap = Some (py "airplay")
  \/ read_state unicode_lower snap = Some (py "idle").
Proof.
  intros Hf Ht. unfold read_state. rewrite Hf.
  destruct Ht as [->|[->| ->]]; [left|right; left|right; right]; reflexivity.
Qed.

(** C4. Every publication writes the whole line to the temporary file
    and then renames it over the status file, so that during a call the
    status file shows its old content or the complete new line.  In every
    run of the program each line published is [streaming], [airplay] or
    [idle] followed by a newline, and never that of [TRANSITIONING]: at
    every snapshot the status file is as the program found it or holds
    such a line, and a reader that finds the file reads one of the three
    tokens from it. *)
Theorem status_publication_atomic
    (url : string) (vol : Z) (manager : option AirPlayManager.t) (dir0 : status_dir)
    (first_start : start_oracle) (first_write : write_oracle)
    (os : list loop_oracle) (signal : option shutdown_oracle) :
  let d := snd (main unicode_lower url vol manager dir0 first_start first_write os signal) in
  (forall o state before,
     write_state_file_steps unicode_lower WriteOk state before
     = [ {| state_file := state_file before; temp_file := Some [] |};
         {| state_file := state_file before;
            temp_file := Some (state_str unicode_lower state ++ [10%N]) |};
         {| state_file := Some (state_str unicode_lower state ++ [10%N]);
            temp_file := None |} ]
     /\ Forall (fun snap => state_file snap = state_file before
                            \/ state_file snap
                               = Some (state_str unicode_lower state ++ [10%N]))
               (write_state_file_steps unicode_lower o state before))
  /\ Forall (untouched_or_token dir0) (observed d)
  /\ untouched_or_token dir0 (dir d)
  /\ (state_file dir0 = None \/ (exists s, state_file dir0 = Some s /\ token_line s) ->
      Forall (fun snap =>
                state_file snap = None
                \/ read_state unicode_lower snap = Some (py "streaming")
                \/ read_state unicode_lower snap = Some (py "airplay")
                \/ read_state unicode_lower snap = Some (py "idle"))
             (observed d ++ [dir d])).
Proof.
  intros d.
  destruct (main_ok url vol manager dir0 first_start first_write os signal) as [Hobs Hdir].
  fold d in Hobs, Hdir.
  split; [|split; [exact Hobs|split; [exact Hdir|]]].
  - intros o state before. split; [reflexivity|].
    apply write_state_file_steps_spec.
  - intros H0.
    assert (forall snap, untouched_or_token dir0 snap ->
              state_file snap = None
              \/ read_state unicode_lower snap = Some (py "streaming")
              \/ read_state unicode_lower snap = Some (py "airplay")
              \/ read_state unicode_lower snap = Some (py "idle")) as Hread.
    { intros snap [Hsame|(s & Hs & Ht)].
      - destruct H0 as [Hnone|(s & Hs & Ht)].
        + left. congruence.
        + right. apply (read_state_token snap s); congruence.
      - right. now apply (read_state_token snap s). }
    apply Forall_app. split.
    + eapply Forall_impl; [exact Hobs|exact Hread].
    + constructor; [now apply Hread|constructor].
Qed.

(** The loop is left by [break] only from [STREAMING] mode, which the
    [break] path neither changes nor publishes. *)
Lemma supervise_break o cur d d' :
  supervise unicode_lower o cur d = (Return Break, d') ->
  cur = STREAMING
  /\ state (audio_controller d') = state (audio_controller d)
  /\ dir d' = dir d /\ observed d' = observed d.
Proof.
  unfold supervise.
  assert (Hidle : forall c w,
    (let '(r, c1, w1) := start_streaming (second_start o) c w in
     match r with
     | Raise e => (Raise e, set_controller c1 w1 d)
     | Return _ =>
       (Return Continue,
        publish unicode_lower (write_after o) (inl (get_state c1))
          (set_controller c1 w1 d))
     end) <> (Return Break, d')).
  { intros c w. destruct (start_streaming _ c w) as [[[b|e] c1] w1]; discriminate. }
  destruct cur; [|discriminate|intros H; destruct (Hidle _ _ H)..].
  destruct (is_playing _ _) as [[|] sp1]; [discriminate|].
  destruct (wait _ sp1 _) as [[return_code sp2] w2].
  set (c2 := set_stream_player sp2 _).
  pose proof (handle_stream_exit_state return_code c2) as Hh.
  destruct (handle_stream_exit return_code c2) as [[|] c3]; cbn in Hh.
  - destruct (start_streaming _ _ w2) as [[[[|]|e] c5] w5]; discriminate.
  - intros [= <-]. cbn. auto.
Qed.

Lemma loop_iteration_break o d :
  fst (loop_iteration unicode_lower o d) = Break ->
  state (audio_controller (snd (loop_iteration unicode_lower o d))) = STREAMING.
Proof.
  unfold loop_iteration.
  destruct (handle_event unicode_lower o _) as [[x|e] d1]; [|discriminate].
  assert (fst (publish_change unicode_lower o d1)
          = state (audio_controller (snd (publish_change unicode_lower o d1)))) as Hcur.
  { unfold publish_change. now case_bool_decide. }
  destruct (publish_change unicode_lower o d1) as [cur d2]. cbn [fst snd] in Hcur.
  set (d3 := set_controller _ _ d2).
  pose proof (supervise_break o cur d3) as Hb.
  destruct (supervise unicode_lower o cur d3) as [[k|e] d4]; [|discriminate].
  cbn [fst snd]. intros ->. destruct (Hb d4 eq_refl) as (Hc & Hs & _).
  rewrite Hs. cbn. congruence.
Qed.

Lemma main_loop_break os : forall d,
  fst (main_loop unicode_lower os d) = Break ->
  state (audio_controller (snd (main_loop unicode_lower os d))) = STREAMING.
Proof.
  induction os as [|o os IH]; intros d; cbn [main_loop]; [discriminate|].
  pose proof (loop_iteration_break o d) as Hb.
  destruct (loop_iteration unicode_lower o d) as [[| |code] d']; cbn [fst snd] in *.
  - apply IH.
  - intros _. now apply Hb.
  - discriminate.
Qed.

Lemma main_break url vol manager dir0 first_start first_write os signal :
  fst (main unicode_lower url vol manager dir0 first_start first_write os signal) = Break ->
  state (audio_controller
           (snd (main unicode_lower url vol manager dir0 first_start first_write os signal)))
  = STREAMING.
Proof.
  unfold main. destruct (start_streaming first_start _ _) as [[[[|]|e] c'] w'];
    [|discriminate..].
  set (d2 := publish _ _ _ _).
  pose proof (main_loop_break os d2) as Hb.
  destruct (main_loop unicode_lower os d2) as [[| |code] d3]; cbn [fst snd] in *.
  - destruct signal; discriminate.
  - destruct signal; auto.
  - destruct signal; discriminate.
Qed.


Lemma owned_processes_exit evs : forall c w,
  owned c w -> owned c (processes_exit evs w).
Proof.
  induction evs as [|[p code] evs IH]; intros c w Ho; cbn; [assumption|].
  apply IH. intros q Hq. apply Ho. eapply alive_process_exits; eauto.
Qed.

Lemma signal_handler_supervised so d :
  supervised d -> supervised (signal_handler unicode_lower so d).
Proof.
  unfold supervised, signal_handler. cbn. intros Ho.
  pose proof (apply_op_owned (OpShutdown (shutdown_stop so)) _ _ Ho) as H.
  cbn [apply_op] in H. now destruct (shutdown _ _ _) as [c' w'].
Qed.

Lemma handle_event_supervised o d :
  supervised d -> supervised (snd (handle_event unicode_lower o d)).
Proof.
  unfold supervised, handle_event. intros Ho.
  destruct (airplay_manager d) as [m|]; [|assumption].
  destruct (check_event unicode_lower (event o) m) as [[[ev|]|e] m']; try assumption.
  case_bool_decide.
  { pose proof (apply_op_owned (OpSwitchToAirplay (airplay_stop o)) _ _ Ho) as Hsw.
    cbn [apply_op] in Hsw. cbn [audio_controller procs set_airplay_manager].
    now destruct (switch_to_airplay _ _ _) as [[r c'] w']. }
  case_bool_decide; [|assumption].
  pose proof (apply_op_owned (OpSwitchToStreaming (streaming_start o)) _ _ Ho) as Hsw.
  cbn [apply_op] in Hsw. cbn [audio_controller procs set_airplay_manager].
  now destruct (switch_to_streaming _ _ _) as [[[b|e] c'] w'].
Qed.

Lemma supervise_supervised o d :
  supervised d ->
  supervised (snd (supervise unicode_lower o (state (audio_controller d)) d)).
Proof.
  unfold supervised, supervise. intros Ho.
  assert (Hidle : forall c w, owned c w ->
    let r := let '(r, c1, w1) := start_streaming (second_start o) c w in
             match r with
             | Raise e => (Raise e, set_controller c1 w1 d)
             | Return _ =>
               (Return Continue,
                publish unicode_lower (write_after o) (inl (get_state c1))
                  (set_controller c1 w1 d))
             end in
    owned (audio_controller (snd r)) (procs (snd r))).
  { intros c w Hc. pose proof (start_streaming_owned (second_start o) c w Hc) as H.
    now destruct (start_streaming _ c w) as [[[b|e] c1] w1]. }
  destruct (state (audio_controller d)) eqn:Hstate; [|assumption|now apply Hidle..].
  pose proof (apply_op_owned OpIsPlaying _ _ Ho) as Hp. cbn [apply_op] in Hp.
  destruct (is_playing _ _) as [[|] sp1]; cbn [snd] in Hp; [exact Hp|].
  assert (quiet (snd (wait (wait_code o) sp1 (procs d)))) as Hq.
  { unfold wait. destruct (process sp1) as [p|] eqn:Hpr; cbn.
    - intros q Hq. pose proof (alive_process_exits _ _ _ _ Hq) as Hq'.
      destruct (Hp q Hq') as (Hpr' & _). cbn in Hpr'.
      assert (q = p) by congruence. subst q.
      eapply not_alive_process_exits; eauto.
    - intros q Hq. destruct (Hp q Hq) as (Hpr' & _). cbn in Hpr'. congruence. }
  destruct (wait (wait_code o) sp1 (procs d)) as [[return_code sp2] w2].
  cbn [snd] in Hq.
  destruct (handle_stream_exit return_code _) as [[|] c3].
  - pose proof (start_streaming_owned (second_start o) (set_state IDLE c3) w2
                  (quiet_owned _ _ Hq)) as Hs.
    destruct (start_streaming _ _ w2) as [[[[|]|e] c5] w5]; cbn; exact Hs.
  - cbn. now apply quiet_owned.
Qed.

Lemma loop_iteration_supervised o d :
  supervised d -> supervised (snd (loop_iteration unicode_lower o d)).
Proof.
  intros Hd. unfold loop_iteration.
  set (d0 := set_controller _ _ d).
  assert (supervised d0) as Hd0 by now apply owned_processes_exit.
  pose proof (handle_event_supervised o d0 Hd0) as H1.
  destruct (handle_event unicode_lower o d0) as [[x|e] d1]; cbn [fst snd] in *;
    [|now apply signal_handler_supervised].
  assert (fst (publish_change unicode_lower o d1)
          = state (audio_controller (snd (publish_change unicode_lower o d1)))
          /\ supervised (snd (publish_change unicode_lower o d1))) as [Hcur H2].
  { unfold publish_change. now case_bool_decide. }
  destruct (publish_change unicode_lower o d1) as [cur d2]. cbn [fst snd] in *.
  set (d3 := set_controller _ _ d2).
  assert (supervised d3) as Hd3 by now apply owned_processes_exit.
  assert (cur = state (audio_controller d3)) as -> by exact Hcur.
  pose proof (supervise_supervised o d3 Hd3) as H4.
  destruct (supervise unicode_lower o _ d3) as [[k|e] d4]; cbn [fst snd] in *;
    [assumption|now apply signal_handler_supervised].
Qed.

Lemma main_loop_supervised os : forall d,
  supervised d -> supervised (snd (main_loop unicode_lower os d)).
Proof.
  induction os as [|o os IH]; intros d Hd; cbn [main_loop]; [assumption|].
  pose proof (loop_iteration_supervised o d Hd) as H.
  destruct (loop_iteration unicode_lower o d) as [[| |code] d']; cbn [snd] in *; auto.
Qed.

(** In every state [main] reaches at the end of an iteration, [AIRPLAY]
    mode means that no playback subprocess is alive. *)
Lemma main_airplay_excludes_live_player
    url vol manager dir0 first_start first_write os signal :
  let d := snd (main unicode_lower url vol manager dir0 first_start first_write os signal) in
  state (audio_controller d) = AIRPLAY -> forall p, ~ alive (procs d) p.
Proof.
  assert (supervised
            (snd (main unicode_lower url vol manager dir0 first_start first_write os signal)))
    as Hsup.
  { unfold main. cbn [audio_controller procs].
    assert (owned (AudioController.init url vol) []) as H0.
    { intros q Hq. unfold alive in Hq. rewrite lookup_nil in Hq. discriminate. }
    pose proof (start_streaming_owned first_start _ _ H0) as Hs.
    destruct (start_streaming first_start _ []) as [[r c'] w'].
    destruct r as [[|]|e]; cbn [snd]; try exact Hs.
    set (d2 := publish _ _ _ _).
    pose proof (main_loop_supervised os d2 Hs) as Hl.
    destruct (main_loop unicode_lower os d2) as [[| |code] d3]; cbn [snd] in *.
    - destruct signal as [so|]; cbn [snd]; [now apply signal_handler_supervised|exact Hl].
    - now destruct signal.
    - now destruct signal. }
  intros d Ha p Hp. destruct (Hsup p Hp) as (_ & Hs & _). fold d in Hs. congruence.
Qed.

End Publication.


(** C1 fails on the code.  The player starts, [streaming] is published,
    and the player then exits with code 0: the loop is left by [break]
    and [main] returns.  The mode is still [STREAMING], the status file
    still reads [streaming], the only two publications of the run are
    those of [streaming], and the player still holds the handle of the
    dead process.  Likewise when the restart budget runs out: after nine
    exits with code 1, each followed by a failed restart and a later
    start from idle, the tenth exit leaves the loop with the counter at
    10, the mode [STREAMING] and [streaming] in the status file. *)
Theorem break_leaves_streaming_published :
  (let '(k, d) :=
     main (fun cp => [cp]) "http://radio" 100 None
          {| state_file := None; temp_file := None |}
          started WriteOk [player_exits 0 0 started] None in
   k = Break
   /\ state (audio_controller d) = STREAMING
   /\ state_file (dir d) = Some (py "streaming" ++ [10%N])
   /\ read_state (fun cp => [cp]) (dir d) = Some (py "streaming")
   /\ observed d
      = write_state_file_steps (fun cp => [cp]) WriteOk (inl STREAMING)
          {| state_file := None; temp_file := None |}
        ++ write_state_file_steps (fun cp => [cp]) WriteOk (inl STREAMING)
             {| state_file := Some (py "streaming" ++ [10%N]); temp_file := None |}
   /\ process (stream_player (audio_controller d)) = Some 0%nat
   /\ procs d = [Exited 0])
  /\ (let '(k, d) :=
        main (fun cp => [cp]) "http://radio" 100 None
             {| state_file := None; temp_file := None |}
             started WriteOk
             (failing_rounds 9 0 ++ [player_exits 9 1 started]) None in
      k = Break
      /\ restart_count (stream_player (audio_controller d)) = 10
      /\ state (audio_controller d) = STREAMING
      /\ state_file (dir d) = Some (py "streaming" ++ [10%N])
      /\ read_state (fun cp => [cp]) (dir d) = Some (py "streaming")
      /\ procs d = replicate 10 (Exited 1)).
Proof. vm_compute. repeat split. Qed.

(** * Further properties *)

(** ** The player on its own *)

Lemma start_success (o : start_oracle) (sp : StreamPlayer.t) (w : world) sp' w' :
  start o sp w = (Return true, sp', w') <->
  is_mpv_available (mpv_probe o) = Return true
  /\ (exists u, popen o = Return u) /\ early_exit o = None
  /\ sp' = set_is_playing true (set_process (Some (length w)) sp)
  /\ w' = w ++ [Running].
Proof.
  unfold start, start_via.
  assert (Hnew : poll (w ++ [Running]) (length w) = None).
  { unfold poll. now rewrite list_lookup_middle. }
  assert (Hdead : forall code,
             poll (process_exits (length w) code (w ++ [Running])) (length w) <> None).
  { intros code Hp. apply poll_None_alive in Hp.
    eapply not_alive_process_exits; eauto. }
  destruct (is_mpv_available (mpv_probe o)) as [[|]|e0].
  2,3: split; [discriminate|intros (? & _); discriminate].
  destruct (popen o) as [u|e].
  2: { destruct (start_except e sp) as [[via r] sp1] eqn:He. split.
       - intros [= -> <- <-]. destruct e; discriminate.
       - intros (_ & (u & ?) & _). discriminate. }
  destruct (early_exit o) as [code|].
  - specialize (Hdead code).
    destruct (poll (process_exits _ _ _) _) as [rc|] eqn:E; [|congruence].
    split; [|intros (_ & _ & ? & _); discriminate].
    destruct (stderr_read o) as [?|e]; [discriminate|].
    destruct (start_except e _) as [[via r] sp1] eqn:He.
    intros [= -> <- <-]. destruct e; discriminate.
  - rewrite Hnew. split.
    + intros [= <- <-]. eauto 10.
    + intros (_ & _ & _ & -> & ->). reflexivity.
Qed.

(** X1. When [start] returns [True] the new process is the last entry of
    the table, it is running, the player holds its handle, [is_playing()]
    answers [True] without changing the player, and the restart counter is
    untouched.  It returns [True] exactly when the [mpv] probe succeeded,
    [Popen] returned and the process survived the one-second check. *)
Theorem start_success_is_playing
    (o : start_oracle) (sp : StreamPlayer.t) (w : world) sp' w' :
  start o sp w = (Return true, sp', w') ->
  w' = w ++ [Running]
  /\ process sp' = Some (length w)
  /\ alive w' (length w)
  /\ is_playing sp' w' = (true, sp')
  /\ restart_count sp' = restart_count sp
  /\ is_mpv_available (mpv_probe o) = Return true
  /\ early_exit o = None.
Proof.
  intros H. apply start_success in H as (Hm & _ & He & -> & ->).
  assert (alive (w ++ [Running]) (length w)) as Ha.
  { unfold alive. now rewrite list_lookup_middle. }
  repeat split; auto.
  unfold is_playing. cbn. apply poll_None_alive in Ha. now rewrite Ha.
Qed.

Lemma start_success_is_playing_witness :
  is_playing (StreamPlayer.mk "u" 80 (Some 0%nat) 0 10 3 true) [Running]
  = (true, StreamPlayer.mk "u" 80 (Some 0%nat) 0 10 3 true).
Proof.
  apply (start_success_is_playing started (StreamPlayer.init "u" 80) []
           (StreamPlayer.mk "u" 80 (Some 0%nat) 0 10 3 true) [Running]).
  reflexivity.
Defined.

(** X2. [start] does not stop a process the player already holds: called
    while that process runs, a successful [start] replaces the handle and
    leaves both processes running, the old one without a handle. *)
Theorem start_overwrites_live_handle
    (o : start_oracle) (sp : StreamPlayer.t) (w : world) (p : nat) sp' w' :
  process sp = Some p -> alive w p ->
  start o sp w = (Return true, sp', w') ->
  alive w' p /\ alive w' (length w) /\ p <> length w
  /\ process sp' = Some (length w).
Proof.
  intros Hp Ha H. apply start_success in H as (_ & _ & _ & -> & ->).
  pose proof (lookup_lt_Some _ _ _ Ha) as Hlt.
  unfold alive in *. repeat split.
  - now rewrite lookup_app_l.
  - now rewrite list_lookup_middle.
  - lia.
Qed.

Lemma start_overwrites_live_handle_witness :
  alive [Running; Running] 0 /\ alive [Running; Running] 1.
Proof.
  pose proof (start_overwrites_live_handle started
                (StreamPlayer.mk "u" 80 (Some 0%nat) 0 10 3 true) [Running] 0
                (StreamPlayer.mk "u" 80 (Some 1%nat) 0 10 3 true) [Running; Running]
                eq_refl eq_refl eq_refl) as (H0 & H1 & _).
  exact (conj H0 H1).
Defined.

Lemma process_exits_lookup_ne p code (w : world) q :
  p <> q -> process_exits p code w !! q = w !! q.
Proof.
  intros Hne. unfold process_exits. destruct (w !! p) as [[|c]|]; auto.
  now rewrite list_lookup_insert_ne.
Qed.

Lemma process_exits_lookup_alive p code (w : world) :
  alive w p -> process_exits p code w !! p = Some (Exited code).
Proof.
  intros Ha. unfold process_exits. rewrite Ha.
  apply list_lookup_insert_eq. eapply lookup_lt_Some; eauto.
Qed.

Lemma process_exits_dead p code (w : world) :
  ~ alive w p -> process_exits p code w = w.
Proof.
  unfold alive, process_exits. destruct (w !! p) as [[|c]|]; tauto.
Qed.

(** X3. [stop] ends the process the player holds and no other: afterwards
    that process is not running, having exited with the code of its
    graceful exit or with -9 when it had to be killed; every other entry of
    the table and the restart counter are as before. *)
Theorem stop_kills_only_held_process
    (graceful : option Z) (sp : StreamPlayer.t) (w : world) :
  let '(sp', w') := stop graceful sp w in
  length w' = length w
  /\ (forall p, process sp = Some p ->
        ~ alive w' p
        /\ (alive w p -> w' !! p = Some (Exited (default (-9) graceful)))
        /\ (~ alive w p -> w' = w))
  /\ (forall q, process sp <> Some q -> w' !! q = w !! q)
  /\ restart_count sp' = restart_count sp.
Proof.
  unfold stop. destruct (process sp) as [p|] eqn:Hp.
  - assert ((match graceful with
             | Some code => process_exits p code w
             | None => process_exits p (-9) w
             end) = process_exits p (default (-9) graceful) w) as ->
      by now destruct graceful.
    split; [apply process_exits_length|]. split; [|split; [|reflexivity]].
    + intros p' [= <-]. split; [apply not_alive_process_exits|].
      split; [apply process_exits_lookup_alive|apply process_exits_dead].
    + intros q Hq. apply process_exits_lookup_ne. congruence.
  - split; [reflexivity|]. split; [intros p [=]|].
    split; [intros; reflexivity|reflexivity].
Qed.

(** X4. [wait] with no handle returns -1 and changes nothing.  With a
    handle it returns only once the process has exited: the process is not
    running afterwards, the value returned is its return code (the code it
    had already exited with, if it had), [is_playing()] is then [False],
    and the player keeps the handle. *)
Theorem wait_reaps_process (code : Z) (sp : StreamPlayer.t) (w : world) :
  let '(rc, sp', w') := wait code sp w in
  (process sp = None -> rc = -1 /\ sp' = sp /\ w' = w)
  /\ (forall p, process sp = Some p ->
        ~ alive w' p
        /\ poll w' p = Some rc
        /\ (alive w p -> rc = code)
        /\ (forall c, w !! p = Some (Exited c) -> rc = c /\ w' = w)
        /\ fst (is_playing sp' w') = false
        /\ process sp' = Some p).
Proof.
  unfold wait. destruct (process sp) as [p|] eqn:Hp.
  - split; [discriminate|]. intros p' [= <-].
    assert (poll (process_exits p code w) p
            = Some (default code (poll (process_exits p code w) p))) as Hpoll.
    { destruct (poll (process_exits p code w) p) eqn:E; [reflexivity|].
      apply poll_None_alive in E. destruct (not_alive_process_exits _ _ _ E). }
    split; [apply not_alive_process_exits|]. split; [exact Hpoll|].
    split; [|split; [|split]].
    + intros Ha. unfold poll. now rewrite process_exits_lookup_alive.
    + intros c Hc. rewrite process_exits_dead by (unfold alive; congruence).
      unfold poll. rewrite Hc. auto.
    + unfold is_playing. cbn. rewrite Hp, Hpoll. reflexivity.
    + exact Hp.
  - split; [auto|discriminate].
Qed.

(** ** The controller *)

Lemma reachable_owned url vol ops c w :
  run_ops ops (AudioController.init url vol) [] = (c, w) -> owned c w.
Proof.
  intros Hrun.
  assert (owned (AudioController.init url vol) []) as H0.
  { intros q Hq. unfold alive in Hq. rewrite lookup_nil in Hq. discriminate. }
  pose proof (run_ops_owned ops _ _ H0) as H. now rewrite Hrun in H.
Qed.

(** X5. After any sequence of controller operations from a fresh
    controller, at most one playback subprocess is alive, and
    [is_streaming()] answers [True] exactly when one is. *)
Theorem at_most_one_live_player
    (url : string) (vol : Z) (ops : list op) (c : AudioController.t) (w : world) :
  run_ops ops (AudioController.init url vol) [] = (c, w) ->
  (forall p q, alive w p -> alive w q -> p = q)
  /\ (fst (is_streaming c w) = true <-> exists p, alive w p).
Proof.
  intros Hrun. pose proof (reachable_owned _ _ _ _ _ Hrun) as Ho. split.
  - intros p q Hp Hq. destruct (Ho p Hp) as (Hp' & _), (Ho q Hq) as (Hq' & _).
    congruence.
  - unfold is_streaming, is_playing. split.
    + destruct (decide (state c = STREAMING)); [|discriminate].
      destruct (process (stream_player c)) as [p|]; [|discriminate].
      destruct (poll w p) eqn:E; [discriminate|].
      intros _. exists p. now apply poll_None_alive.
    + intros [p Hp]. destruct (Ho p Hp) as (Hpr & Hs & Hpl).
      rewrite decide_True by assumption. rewrite Hpr.
      apply poll_None_alive in Hp. now rewrite Hp.
Qed.

Lemma at_most_one_live_player_witness :
  fst (is_streaming
         (AudioController.mk (StreamPlayer.mk "u" 80 (Some 1%nat) 0 10 3 true) STREAMING)
         [Exited (-15); Running]) = true
  <-> exists p, alive [Exited (-15); Running] p.
Proof.
  apply (at_most_one_live_player "u" 80
           [OpStartStreaming started; OpSwitchToAirplay (Some (-15));
            OpSwitchToStreaming started]).
  reflexivity.
Defined.

Lemma start_streaming_launch_outcome o c w :
  let '(r, c', w') := start_streaming_launch o c w in
  match r with
  | Return true => state c' = STREAMING /\ fst (is_streaming c' w') = true
  | Return false => state c' = IDLE
  | Raise _ => state c' = TRANSITIONING
  end.
Proof.
  unfold start_streaming_launch.
  pose proof (start_success o (stream_player (set_state TRANSITIONING c)) w) as Hs.
  destruct (start o _ w) as [[r sp'] w']. destruct r as [[|]|e]; cbn; auto.
  split; [reflexivity|].
  destruct (proj1 (Hs sp' w') eq_refl) as (_ & _ & _ & -> & ->).
  unfold is_streaming, is_playing, poll. cbn. now rewrite list_lookup_middle.
Qed.

Lemma start_streaming_cases
    (o : start_oracle) (c : AudioController.t) (w : world) :
  let '(r, c', w') := start_streaming o c w in
  match r with
  | Return true => state c' = STREAMING /\ fst (is_streaming c' w') = true
  | Return false =>
    (state c = AIRPLAY /\ c' = c /\ w' = w) \/ (state c <> AIRPLAY /\ state c' = IDLE)
  | Raise _ => state c <> AIRPLAY /\ state c' = TRANSITIONING
  end.
Proof.
  unfold start_streaming.
  destruct (decide (state c = AIRPLAY)) as [Ha|Ha]; [auto|].
  assert (forall c0, let '(r, c', w') := start_streaming_launch o c0 w in
            match r with
            | Return true => state c' = STREAMING /\ fst (is_streaming c' w') = true
            | Return false =>
              (state c = AIRPLAY /\ c' = c /\ w' = w)
              \/ (state c <> AIRPLAY /\ state c' = IDLE)
            | Raise _ => state c <> AIRPLAY /\ state c' = TRANSITIONING
            end) as Hl.
  { intros c0. pose proof (start_streaming_launch_outcome o c0 w) as H.
    destruct (start_streaming_launch o c0 w) as [[[[|]|e] c'] w']; auto. }
  destruct (decide (state c = STREAMING)) as [Hs|Hs]; [|apply Hl].
  pose proof (is_playing_true_same (stream_player c) w) as Ht.
  destruct (is_playing (stream_player c) w) as [[|] sp'] eqn:Hp; [|apply Hl].
  cbn in Ht. rewrite Ht by reflexivity. rewrite set_stream_player_same.
  split; [assumption|]. unfold is_streaming.
  rewrite decide_True by assumption. now rewrite Hp.
Qed.

(** X6. [start_streaming] returns [True] only in [STREAMING] mode with
    [is_streaming()] true at once; it returns [False] either refused in
    [AIRPLAY] mode, nothing changed, or after a failed launch, in [IDLE]
    mode; an exception leaves the mode at [TRANSITIONING]. *)
Theorem start_streaming_outcome
    (o : start_oracle) (c : AudioController.t) (w : world) :
  let '(r, c', w') := start_streaming o c w in
  match r with
  | Return true => state c' = STREAMING /\ fst (is_streaming c' w') = true
  | Return false =>
    (state c = AIRPLAY /\ c' = c /\ w' = w) \/ (state c <> AIRPLAY /\ state c' = IDLE)
  | Raise _ => state c <> AIRPLAY /\ state c' = TRANSITIONING
  end.
Proof. exact (start_streaming_cases o c w). Qed.

Lemma switch_to_streaming_cases
    (o : start_oracle) (c : AudioController.t) (w : world) :
  (let '(r, c', w') := switch_to_streaming o c w in
   match r with
   | Return true => state c' = STREAMING /\ fst (is_streaming c' w') = true
   | Return false => state c' = IDLE
   | Raise _ => state c' = TRANSITIONING
   end)
  /\ (state c = AIRPLAY ->
      switch_to_streaming o c w = start_streaming o (set_state IDLE c) w).
Proof.
  split.
  - unfold switch_to_streaming.
    assert (forall c0, state c0 <> AIRPLAY ->
              let '(r, c', w') := start_streaming o c0 w in
              match r with
              | Return true => state c' = STREAMING /\ fst (is_streaming c' w') = true
              | Return false => state c' = IDLE
              | Raise _ => state c' = TRANSITIONING
              end) as Hst.
    { intros c0 H0. pose proof (start_streaming_cases o c0 w) as H.
      destruct (start_streaming o c0 w) as [[[[|]|e] c'] w']; try tauto. }
    destruct (decide (state c = STREAMING)) as [Hs|Hs].
    + pose proof (is_playing_true_same (stream_player c) w) as Ht.
      destruct (is_playing (stream_player c) w) as [[|] sp'] eqn:Hp.
      * cbn in Ht. rewrite Ht by reflexivity. rewrite set_stream_player_same.
        split; [assumption|]. unfold is_streaming.
        rewrite decide_True by assumption. now rewrite Hp.
      * cbn [negb]. apply Hst. cbn. discriminate.
    + destruct (decide (state c = AIRPLAY)); apply Hst; [cbn; discriminate|assumption].
  - intros Ha. unfold switch_to_streaming.
    destruct (decide (state c = STREAMING)); [congruence|].
    now rewrite decide_True.
Qed.

(** X7. [switch_to_streaming] never returns in [AIRPLAY] mode: it returns
    [True] in [STREAMING] mode with [is_streaming()] true, and [False] in
    [IDLE] mode.  From [AIRPLAY] it is [start_streaming] run from [IDLE]. *)
Theorem switch_to_streaming_outcome
    (o : start_oracle) (c : AudioController.t) (w : world) :
  (let '(r, c', w') := switch_to_streaming o c w in
   match r with
   | Return true => state c' = STREAMING /\ fst (is_streaming c' w') = true
   | Return false => state c' = IDLE
   | Raise _ => state c' = TRANSITIONING
   end)
  /\ (state c = AIRPLAY ->
      switch_to_streaming o c w = start_streaming o (set_state IDLE c) w).
Proof. exact (switch_to_streaming_cases o c w). Qed.

(** X8. [stop_streaming] never leaves the mode at [STREAMING] or
    [TRANSITIONING]; in [AIRPLAY] and [IDLE] mode it does nothing; called
    again at once it does nothing. *)
Theorem stop_streaming_idempotent
    (graceful : option Z) (c : AudioController.t) (w : world) :
  let '(c1, w1) := stop_streaming graceful c w in
  state c1 <> STREAMING /\ state c1 <> TRANSITIONING
  /\ (state c = AIRPLAY \/ state c = IDLE -> c1 = c /\ w1 = w)
  /\ (state c = AIRPLAY <-> state c1 = AIRPLAY)
  /\ forall graceful', stop_streaming graceful' c1 w1 = (c1, w1).
Proof.
  unfold stop_streaming.
  assert (forall c1 w1, state c1 = IDLE -> state c <> AIRPLAY -> state c <> IDLE ->
            state c1 <> STREAMING /\ state c1 <> TRANSITIONING
            /\ (state c = AIRPLAY \/ state c = IDLE -> c1 = c /\ w1 = w)
            /\ (state c = AIRPLAY <-> state c1 = AIRPLAY)
            /\ forall graceful',
                 (if decide (state c1 = STREAMING)
                  then let '(sp', w') := stop graceful' (stream_player c1) w1 in
                       (set_state IDLE (set_stream_player sp' c1), w')
                  else if decide (state c1 = TRANSITIONING)
                       then (set_state IDLE c1, w1) else (c1, w1)) = (c1, w1)) as Hidle.
  { intros c1 w1 H1 Ha Hi. rewrite H1.
    split; [discriminate|]. split; [discriminate|]. split; [tauto|].
    split; [split; [tauto|discriminate]|]. intros g'.
    rewrite decide_False by congruence. now rewrite decide_False by congruence. }
  destruct (decide (state c = STREAMING)) as [Hs|Hs].
  - destruct (stop graceful (stream_player c) w) as [sp' w'].
    apply Hidle; [reflexivity|congruence..].
  - destruct (decide (state c = TRANSITIONING)) as [Ht|Ht].
    + apply Hidle; [reflexivity|congruence..].
    + split; [assumption|]. split; [assumption|]. split; [auto|]. split; [tauto|].
      intros g'. rewrite decide_False by assumption. now rewrite decide_False.
Qed.

(** X9. After any sequence of controller operations, [shutdown] ends in
    [IDLE] mode with no playback subprocess alive and the restart counter
    unchanged. *)
Theorem shutdown_stops_everything
    (url : string) (vol : Z) (ops : list op) (graceful : option Z)
    (c : AudioController.t) (w : world) :
  run_ops ops (AudioController.init url vol) [] = (c, w) ->
  let '(c', w') := shutdown graceful c w in
  state c' = IDLE
  /\ (forall p, ~ alive w' p)
  /\ restart_count (stream_player c') = restart_count (stream_player c).
Proof.
  intros Hrun. pose proof (reachable_owned _ _ _ _ _ Hrun) as Ho.
  unfold shutdown. pose proof (stop_streaming_quiet graceful c w Ho) as Hq.
  assert (restart_count (stream_player (fst (stop_streaming graceful c w)))
          = restart_count (stream_player c)) as Hc.
  { unfold stop_streaming. destruct (decide (state c = STREAMING)).
    - unfold stop. now destruct (process (stream_player c)).
    - now destruct (decide (state c = TRANSITIONING)). }
  destruct (stop_streaming graceful c w) as [c' w']. cbn in *. auto.
Qed.

Lemma shutdown_stops_everything_witness :
  ~ alive [Exited (-9)] 0.
Proof.
  pose proof (shutdown_stops_everything "u" 80 [OpStartStreaming started] None
                (AudioController.mk (StreamPlayer.mk "u" 80 (Some 0%nat) 0 10 3 true) STREAMING)
                [Running] eq_refl) as H.
  cbn in H. destruct H as (_ & H & _). exact (H 0%nat).
Defined.

(** X10. An AirPlay session and back: from any state the controller can
    reach, [switch_to_airplay] followed by a [switch_to_streaming] whose
    launch succeeds returns [True] in [STREAMING] mode, and the one
    subprocess alive is the newly launched one, which the player holds. *)
Theorem airplay_session_roundtrip
    (url : string) (vol : Z) (ops : list op) (graceful : option Z)
    (o : start_oracle) (c : AudioController.t) (w : world) :
  run_ops ops (AudioController.init url vol) [] = (c, w) ->
  is_mpv_available (mpv_probe o) = Return true ->
  (exists u, popen o = Return u) ->
  early_exit o = None ->
  let '(_, c1, w1) := switch_to_airplay graceful c w in
  let '(r, c2, w2) := switch_to_streaming o c1 w1 in
  state c1 = AIRPLAY
  /\ r = Return true /\ state c2 = STREAMING
  /\ process (stream_player c2) = Some (length w)
  /\ (forall p, alive w2 p <-> p = length w).
Proof.
  intros Hrun Hm Hpo He. pose proof (reachable_owned _ _ _ _ _ Hrun) as Ho.
  pose proof (switch_to_airplay_state graceful c w) as Ha.
  assert (length (snd (switch_to_airplay graceful c w)) = length w) as Hlen.
  { unfold switch_to_airplay. destruct (decide (state c = AIRPLAY)); [reflexivity|].
    unfold stop_streaming. destruct (decide (state c = STREAMING)); [|reflexivity].
    unfold stop. destruct (process (stream_player c)); [|reflexivity].
    destruct graceful; cbn; apply process_exits_length. }
  assert (quiet (snd (switch_to_airplay graceful c w))) as Hq.
  { pose proof (switch_to_airplay_quiet graceful c w Ho) as H.
    destruct (switch_to_airplay graceful c w) as [[b c1] w1]. cbn.
    destruct H as [(Hca & -> & ->)|H]; [|exact H].
    eapply owned_quiet; [exact Ho|congruence]. }
  destruct (switch_to_airplay graceful c w) as [[b c1] w1]. cbn in Ha, Hlen, Hq.
  destruct (switch_to_streaming_cases o c1 w1) as [_ Heq].
  rewrite (Heq Ha). unfold start_streaming. cbn [state set_state].
  rewrite decide_False by discriminate. rewrite decide_False by discriminate.
  unfold start_streaming_launch. cbn [stream_player set_state].
  destruct Hpo as [u Hpo].
  assert (start o (stream_player c1) w1
          = (Return true,
             set_is_playing true (set_process (Some (length w1)) (stream_player c1)),
             w1 ++ [Running])) as ->.
  { apply start_success. eauto 10. }
  cbn. rewrite Hlen. repeat split; auto.
  - intros Hp. apply alive_spawn in Hp; [|exact Hq]. congruence.
  - intros ->. unfold alive. rewrite <- Hlen. now rewrite list_lookup_middle.
Qed.

Lemma airplay_session_roundtrip_witness :
  alive [Exited (-15); Running] 1.
Proof.
  pose proof (airplay_session_roundtrip "u" 80 [OpStartStreaming started] (Some (-15))
                started
                (AudioController.mk (StreamPlayer.mk "u" 80 (Some 0%nat) 0 10 3 true) STREAMING)
                [Running] eq_refl eq_refl (ex_intro _ tt eq_refl) eq_refl) as H.
  cbn in H. destruct H as (_ & _ & _ & _ & H). apply H. reflexivity.
Defined.

(** ** The program *)

Ltac case_innermost :=
  repeat match goal with
         | |- context [match ?x with _ => _ end] =>
           lazymatch x with
           | context [match _ with _ => _ end] => fail
           | _ => destruct x; cbn
           end
         end.

Lemma start_streaming_counters o c w :
  restart_count (stream_player (snd (fst (start_streaming o c w))))
  = restart_count (stream_player c)
  /\ max_restart_attempts (stream_player (snd (fst (start_streaming o c w))))
     = max_restart_attempts (stream_player c).
Proof.
  unfold start_streaming, start_streaming_launch, start, start_via, start_except,
    is_playing.
  case_innermost; split; reflexivity.
Qed.

Lemma switch_to_streaming_counters o c w :
  restart_count (stream_player (snd (fst (switch_to_streaming o c w))))
  = restart_count (stream_player c)
  /\ max_restart_attempts (stream_player (snd (fst (switch_to_streaming o c w))))
     = max_restart_attempts (stream_player c).
Proof.
  unfold switch_to_streaming, start_streaming, start_streaming_launch, start, start_via,
    start_except, is_playing.
  case_innermost; split; reflexivity.
Qed.

Lemma switch_to_airplay_counters g c w :
  restart_count (stream_player (snd (fst (switch_to_airplay g c w))))
  = restart_count (stream_player c)
  /\ max_restart_attempts (stream_player (snd (fst (switch_to_airplay g c w))))
     = max_restart_attempts (stream_player c).
Proof.
  unfold switch_to_airplay, stop_streaming, stop.
  case_innermost; split; reflexivity.
Qed.

Lemma shutdown_counters g c w :
  restart_count (stream_player (fst (shutdown g c w)))
  = restart_count (stream_player c)
  /\ max_restart_attempts (stream_player (fst (shutdown g c w)))
     = max_restart_attempts (stream_player c).
Proof.
  unfold shutdown, stop_streaming, stop.
  case_innermost; split; reflexivity.
Qed.

Lemma handle_stream_exit_budget rc c :
  max_restart_attempts (stream_player c) = 10 ->
  0 <= restart_count (stream_player c) < 10 ->
  max_restart_attempts (stream_player (snd (handle_stream_exit rc c))) = 10
  /\ 0 <= restart_count (stream_player (snd (handle_stream_exit rc c))) <= 10
  /\ (fst (handle_stream_exit rc c) = true ->
      restart_count (stream_player (snd (handle_stream_exit rc c))) < 10).
Proof.
  intros Hm Hc. unfold handle_stream_exit.
  destruct (decide (state c <> STREAMING)); [cbn; split; [assumption|split; [lia|discriminate]]|].
  destruct (rc =? 0); [cbn; split; [assumption|split; [lia|discriminate]]|].
  cbn. rewrite Hm. destruct (_ >=? _) eqn:E; cbn.
  - split; [assumption|]. split; [lia|discriminate].
  - rewrite Z.geb_leb in E. apply Z.leb_gt in E. split; [assumption|]. split; lia.
Qed.

Section Program.

Variable unicode_lower : N -> list N.

(** *** The restart budget *)

Lemma signal_handler_counters so d :
  restarts (signal_handler unicode_lower so d) = restarts d
  /\ max_restarts (signal_handler unicode_lower so d) = max_restarts d.
Proof.
  unfold signal_handler, restarts, max_restarts. cbn.
  pose proof (shutdown_counters (shutdown_stop so) (audio_controller d) (procs d)) as H.
  destruct (shutdown _ _ _) as [c' w']. exact H.
Qed.

Lemma handle_event_budget o d :
  restarts (snd (handle_event unicode_lower o d)) = restarts d
  /\ max_restarts (snd (handle_event unicode_lower o d)) = max_restarts d.
Proof.
  unfold handle_event, restarts, max_restarts.
  destruct (airplay_manager d) as [m|]; [|now cbn].
  destruct (check_event unicode_lower (event o) m) as [[[ev|]|e] m']; try now cbn.
  case_bool_decide.
  { pose proof (switch_to_airplay_counters (airplay_stop o) (audio_controller d) (procs d))
      as Hc.
    cbn [audio_controller procs set_airplay_manager].
    destruct (switch_to_airplay _ _ _) as [[r c'] w']. exact Hc. }
  case_bool_decide; [|now cbn].
  pose proof (switch_to_streaming_counters (streaming_start o) (audio_controller d) (procs d))
    as Hc.
  cbn [audio_controller procs set_airplay_manager].
  destruct (switch_to_streaming _ _ _) as [[[b|e] c'] w']; exact Hc.
Qed.

Lemma supervise_budget o cur d :
  in_budget d ->
  max_restarts (snd (supervise unicode_lower o cur d)) = 10
  /\ 0 <= restarts (snd (supervise unicode_lower o cur d)) <= 10
  /\ (fst (supervise unicode_lower o cur d) <> Return Break ->
      restarts (snd (supervise unicode_lower o cur d)) < 10).
Proof.
  intros [Hm Hc]. unfold restarts, max_restarts in *. unfold supervise.
  assert (Hidle : forall c w,
    max_restart_attempts (stream_player c) = 10 ->
    0 <= restart_count (stream_player c) < 10 ->
    let r := let '(r, c1, w1) := start_streaming (second_start o) c w in
             match r with
             | Raise e => (Raise e, set_controller c1 w1 d)
             | Return _ =>
               (Return Continue,
                publish unicode_lower (write_after o) (inl (get_state c1))
                  (set_controller c1 w1 d))
             end in
    max_restart_attempts (stream_player (audio_controller (snd r))) = 10
    /\ 0 <= restart_count (stream_player (audio_controller (snd r))) <= 10
    /\ (fst r <> Return Break ->
        restart_count (stream_player (audio_controller (snd r))) < 10)).
  { intros c w Hm0 Hc0.
    destruct (start_streaming_counters (second_start o) c w) as [H1 H2].
    destruct (start_streaming _ c w) as [[[b|e] c1] w1]; cbn in *;
      rewrite H1, H2; repeat split; try assumption; lia. }
  destruct cur; [|cbn; repeat split; try assumption; lia|now apply Hidle..].
  assert (restart_count (snd (is_playing (stream_player (audio_controller d)) (procs d)))
          = restart_count (stream_player (audio_controller d))
          /\ max_restart_attempts
               (snd (is_playing (stream_player (audio_controller d)) (procs d)))
             = max_restart_attempts (stream_player (audio_controller d))) as [Hp1 Hp2].
  { unfold is_playing. case_innermost; split; reflexivity. }
  destruct (is_playing _ _) as [[|] sp1]; cbn [snd] in Hp1, Hp2.
  { cbn. rewrite Hp1, Hp2. repeat split; try assumption; lia. }
  assert (restart_count (snd (fst (wait (wait_code o) sp1 (procs d)))) = restart_count sp1
          /\ max_restart_attempts (snd (fst (wait (wait_code o) sp1 (procs d))))
             = max_restart_attempts sp1) as [Hw1 Hw2].
  { unfold wait. case_innermost; split; reflexivity. }
  destruct (wait (wait_code o) sp1 (procs d)) as [[return_code sp2] w2].
  cbn [fst snd] in Hw1, Hw2.
  set (c2 := set_stream_player sp2 _).
  destruct (handle_stream_exit_budget return_code c2) as (Hh1 & Hh2 & Hh3).
  { subst c2. cbn. congruence. }
  { subst c2. cbn. lia. }
  destruct (handle_stream_exit return_code c2) as [[|] c3]; cbn [fst snd] in *.
  2: { cbn. split; [assumption|]. split; [assumption|]. intros H. now destruct H. }
  specialize (Hh3 eq_refl).
  destruct (start_streaming_counters (second_start o) (set_state IDLE c3) w2) as [H1 H2].
  destruct (start_streaming _ _ w2) as [[[[|]|e] c5] w5]; cbn in *.
  - split; [congruence|]. lia.
  - rewrite H1, H2. repeat split; try assumption; lia.
  - rewrite H1, H2. repeat split; try assumption; lia.
Qed.

Lemma loop_iteration_budget o d :
  in_budget d ->
  max_restarts (snd (loop_iteration unicode_lower o d)) = 10
  /\ 0 <= restarts (snd (loop_iteration unicode_lower o d)) <= 10
  /\ (fst (loop_iteration unicode_lower o d) <> Break ->
      restarts (snd (loop_iteration unicode_lower o d)) < 10).
Proof.
  intros Hb. unfold loop_iteration.
  set (d0 := set_controller _ _ d).
  destruct (handle_event_budget o d0) as [He1 He2].
  destruct (handle_event unicode_lower o d0) as [[x|e] d1]; cbn [fst snd] in *.
  2: { destruct (signal_handler_counters (on_error o) d1) as [-> ->].
       rewrite He1, He2. destruct Hb as [Hm Hc]. change (restarts d0) with (restarts d).
       change (max_restarts d0) with (max_restarts d). repeat split; try assumption; lia. }
  assert (restarts (snd (publish_change unicode_lower o d1)) = restarts d1
          /\ max_restarts (snd (publish_change unicode_lower o d1)) = max_restarts d1)
    as [Hp1 Hp2].
  { unfold publish_change. now case_bool_decide. }
  destruct (publish_change unicode_lower o d1) as [cur d2]. cbn [snd] in Hp1, Hp2.
  set (d3 := set_controller _ _ d2).
  assert (in_budget d3) as Hb3.
  { destruct Hb as [Hm Hc]. split.
    - change (max_restarts d3) with (max_restarts d2). rewrite Hp2, He2. exact Hm.
    - change (restarts d3) with (restarts d2). rewrite Hp1, He1. exact Hc. }
  destruct (supervise_budget o cur d3 Hb3) as (Hs1 & Hs2 & Hs3).
  destruct (supervise unicode_lower o cur d3) as [[k|e] d4]; cbn [fst snd] in *.
  - split; [assumption|]. split; [assumption|]. intros Hk. apply Hs3. congruence.
  - destruct (signal_handler_counters (on_error o) d4) as [-> ->].
    split; [assumption|]. split; [assumption|]. intros _. apply Hs3. discriminate.
Qed.

Lemma main_loop_budget os : forall d,
  in_budget d ->
  max_restarts (snd (main_loop unicode_lower os d)) = 10
  /\ 0 <= restarts (snd (main_loop unicode_lower os d)) <= 10
  /\ (fst (main_loop unicode_lower os d) <> Break ->
      restarts (snd (main_loop unicode_lower os d)) < 10).
Proof.
  induction os as [|o os IH]; intros d Hb; cbn [main_loop].
  - destruct Hb as [Hm Hc]. cbn. repeat split; try assumption; lia.
  - destruct (loop_iteration_budget o d Hb) as (H1 & H2 & H3).
    destruct (loop_iteration unicode_lower o d) as [[| |code] d']; cbn [fst snd] in *.
    + apply IH. split; [assumption|]. split; [lia|]. apply H3. discriminate.
    + auto.
    + auto.
Qed.

(** X11. Along every run of [main] the restart counter stays between 0
    and 10 and its maximum stays 10; the counter is 10 only when the loop
    has been left by [break]. *)
Theorem restart_count_bounded
    (url : string) (vol : Z) (manager : option AirPlayManager.t) (dir0 : status_dir)
    (first_start : start_oracle) (first_write : write_oracle)
    (os : list loop_oracle) (signal : option shutdown_oracle) :
  let '(k, d) := main unicode_lower url vol manager dir0 first_start first_write os signal in
  max_restarts d = 10
  /\ 0 <= restarts d <= 10
  /\ (restarts d = 10 -> k = Break).
Proof.
  unfold main. cbn [audio_controller procs].
  destruct (start_streaming_counters first_start (AudioController.init url vol) [])
    as [H1 H2].
  destruct (start_streaming first_start _ []) as [[r c'] w']. cbn [fst snd] in H1, H2.
  cbn in H1, H2.
  assert (forall k, max_restarts
             (set_controller c' w'
                (Player.mk (AudioController.init url vol) manager None [] dir0 [])) = 10
           /\ 0 <= restarts
                (set_controller c' w'
                   (Player.mk (AudioController.init url vol) manager None [] dir0 [])) <= 10
           /\ (restarts
                 (set_controller c' w'
                    (Player.mk (AudioController.init url vol) manager None [] dir0 [])) = 10
               -> k = Break)) as Hfail.
  { intros k. unfold restarts, max_restarts. cbn. rewrite H1, H2.
    split; [reflexivity|]. split; [lia|]. discriminate. }
  destruct r as [[|]|e]; [|apply Hfail..].
  set (d2 := publish _ _ _ _).
  assert (in_budget d2) as Hb.
  { unfold in_budget, restarts, max_restarts, d2. cbn. rewrite H1, H2. lia. }
  destruct (main_loop_budget os d2 Hb) as (Hl1 & Hl2 & Hl3).
  destruct (main_loop unicode_lower os d2) as [[| |code] d3]; cbn [fst snd] in *.
  - destruct signal as [so|].
    + destruct (signal_handler_counters so d3) as [-> ->].
      split; [assumption|]. split; [assumption|].
      intros H10. assert (restarts d3 < 10) by (apply Hl3; discriminate). lia.
    + split; [assumption|]. split; [assumption|].
      intros H10. assert (restarts d3 < 10) by (apply Hl3; discriminate). lia.
  - destruct signal; auto.
  - destruct signal; (split; [assumption|]; split; [assumption|];
      intros H10; assert (restarts d3 < 10) by (apply Hl3; discriminate); lia).
Qed.

(** *** Shutdown and start-up *)

Lemma write_state_file_result o s dir :
  state_file (write_state_file unicode_lower o s dir)
  = match o with
    | WriteOk => Some (state_str unicode_lower s ++ [10%N])
    | _ => state_file dir
    end.
Proof. now destruct o. Qed.


Lemma loop_iteration_exit_code o d code :
  fst (loop_iteration unicode_lower o d) = SysExit code -> code = 0.
Proof.
  unfold loop_iteration.
  destruct (handle_event unicode_lower o _) as [[x|e] d1]; [|now intros [= <-]].
  destruct (publish_change unicode_lower o d1) as [cur d2].
  set (d3 := set_controller _ _ d2).
  assert (forall k d4, supervise unicode_lower o cur d3 = (Return k, d4) ->
            k = Continue \/ k = Break) as Hk.
  { unfold supervise. intros k d4.
    assert (forall c w,
      (let '(r, c1, w1) := start_streaming (second_start o) c w in
       match r with
       | Raise e => (Raise e, set_controller c1 w1 d3)
       | Return _ =>
         (Return Continue,
          publish unicode_lower (write_after o) (inl (get_state c1))
            (set_controller c1 w1 d3))
       end) = (Return k, d4) -> k = Continue \/ k = Break) as Hidle.
    { intros c w. destruct (start_streaming _ c w) as [[[b|e] c1] w1];
        [intros [= <- _]; auto|discriminate]. }
    destruct cur; [|intros [= <- _]; auto|apply Hidle..].
    destruct (is_playing _ _) as [[|] sp1]; [intros [= <- _]; auto|].
    destruct (wait _ sp1 _) as [[rc sp2] w2].
    destruct (handle_stream_exit rc _) as [[|] c3]; [|intros [= <- _]; auto].
    destruct (start_streaming _ _ w2) as [[[[|]|e] c5] w5];
      [intros [= <- _]; auto..|discriminate]. }
  destruct (supervise unicode_lower o cur d3) as [[k|e] d4]; cbn [fst].
  - intros ->. destruct (Hk _ _ eq_refl); discriminate.
  - now intros [= <-].
Qed.

Lemma main_loop_exit_code os : forall d code,
  fst (main_loop unicode_lower os d) = SysExit code -> code = 0.
Proof.
  induction os as [|o os IH]; intros d code; cbn [main_loop]; [discriminate|].
  pose proof (loop_iteration_exit_code o d) as Hc.
  destruct (loop_iteration unicode_lower o d) as [[| |code'] d']; cbn [fst] in *.
  - apply IH.
  - discriminate.
  - intros [= <-]. now apply Hc.
Qed.

(** X13. [main] exits with status 1 exactly when the first
    [start_streaming] does not return [True]; it has then written nothing
    to the status directory, no playback subprocess is alive and the mode is
    not [STREAMING]. *)
Theorem startup_failure_exits_silently
    (url : string) (vol : Z) (manager : option AirPlayManager.t) (dir0 : status_dir)
    (first_start : start_oracle) (first_write : write_oracle)
    (os : list loop_oracle) (signal : option shutdown_oracle) :
  let '(k, d) := main unicode_lower url vol manager dir0 first_start first_write os signal in
  (k = SysExit 1 <->
   fst (fst (start_streaming first_start (AudioController.init url vol) [])) <> Return true)
  /\ (k = SysExit 1 ->
      observed d = [] /\ dir d = dir0
      /\ (forall p, ~ alive (procs d) p)
      /\ state (audio_controller d) <> STREAMING).
Proof.
  unfold main. cbn [audio_controller procs].
  assert (owned (AudioController.init url vol) []) as H0.
  { intros q Hq. unfold alive in Hq. rewrite lookup_nil in Hq. discriminate. }
  pose proof (start_streaming_owned first_start _ _ H0) as Ho.
  pose proof (start_streaming_cases first_start (AudioController.init url vol) []) as Hc.
  destruct (start_streaming first_start _ []) as [[r c'] w']. cbn [fst snd].
  destruct r as [[|]|e].
  - set (d2 := publish _ _ _ _).
    pose proof (main_loop_exit_code os d2) as Hx.
    destruct (main_loop unicode_lower os d2) as [[| |code] d3]; cbn [fst] in Hx.
    + destruct signal; (split; [split; [discriminate|intros H; now destruct H]|discriminate]).
    + destruct signal; (split; [split; [discriminate|intros H; now destruct H]|discriminate]).
    + specialize (Hx code eq_refl). subst code.
      destruct signal; (split; [split; [discriminate|intros H; now destruct H]|discriminate]).
  - split; [split; [discriminate|reflexivity]|]. intros _. cbn.
    assert (state c' <> STREAMING) as Hs.
    { destruct Hc as [(Ha & _)|(_ & Hi)]; [discriminate Ha|congruence]. }
    repeat split; auto. eapply owned_quiet; eauto.
  - split; [split; [discriminate|reflexivity]|]. intros _. cbn.
    assert (state c' <> STREAMING) as Hs by (destruct Hc; congruence).
    repeat split; auto. eapply owned_quiet; eauto.
Qed.

(** *** One iteration *)

Lemma quiet_processes_exit evs : forall w, quiet w -> quiet (processes_exit evs w).
Proof.
  induction evs as [|[p code] evs IH]; intros w Hq; cbn; [assumption|].
  apply IH. now apply quiet_process_exits.
Qed.

(** X14. An iteration in which [check_event] reports [connect] continues
    the loop in [AIRPLAY] mode with no playback subprocess alive and
    [AIRPLAY] as the last state seen; if the write after the switch
    succeeds, the status file reads [airplay]. *)
Theorem connect_enters_airplay (o : loop_oracle) (d : Player.t) (m : AirPlayManager.t) :
  supervised d ->
  airplay_manager d = Some m ->
  fst (check_event unicode_lower (event o) m) = Return (Some (py "connect")) ->
  let '(k, d') := loop_iteration unicode_lower o d in
  k = Continue
  /\ state (audio_controller d') = AIRPLAY
  /\ (forall p, ~ alive (procs d') p)
  /\ last_state d' = Some AIRPLAY
  /\ (write_event o = WriteOk -> state_file (dir d') = Some (py "airplay" ++ [10%N])).
Proof.
  intros Hsup Hm Hev. unfold loop_iteration.
  set (d0 := set_controller _ _ d).
  assert (supervised d0) as Hsup0 by now apply owned_processes_exit.
  unfold handle_event. change (airplay_manager d0) with (airplay_manager d). rewrite Hm.
  destruct (check_event unicode_lower (event o) m) as [r m']. cbn [fst] in Hev. subst r.
  rewrite bool_decide_eq_true_2 by reflexivity.
  cbn [audio_controller procs set_airplay_manager].
  pose proof (switch_to_airplay_state (airplay_stop o) (audio_controller d0) (procs d0)) as Ha.
  pose proof (switch_to_airplay_quiet (airplay_stop o) _ _ Hsup0) as Hq.
  destruct (switch_to_airplay _ _ _) as [[b c'] w']. cbn [fst snd] in Ha.
  assert (quiet w') as Hq'.
  { destruct Hq as [(Hc & -> & ->)|Hq]; [|exact Hq].
    eapply owned_quiet; [exact Hsup0|congruence]. }
  clear Hq. unfold get_state. rewrite Ha.
  set (d1 := publish unicode_lower (write_event o) (inl AIRPLAY) _).
  assert (state (audio_controller d1) = AIRPLAY) as Hs1 by exact Ha.
  assert (procs d1 = w') as Hp1 by reflexivity.
  assert (write_event o = WriteOk -> state_file (dir d1) = Some (py "airplay" ++ [10%N]))
    as Hf1.
  { intros Hw. unfold d1, publish. cbn [dir]. now rewrite write_state_file_result, Hw. }
  clearbody d1. unfold publish_change. unfold get_state. rewrite Hs1.
  assert (forall d2, state (audio_controller d2) = AIRPLAY -> procs d2 = w' ->
            last_state d2 = Some AIRPLAY ->
            (write_event o = WriteOk -> state_file (dir d2) = Some (py "airplay" ++ [10%N])) ->
            let d3 := set_controller (audio_controller d2)
                        (processes_exit (exits_between o) (procs d2)) d2 in
            let '(k, d') :=
              match supervise unicode_lower o AIRPLAY d3 with
              | (Raise _, d4) => (SysExit 0, signal_handler unicode_lower (on_error o) d4)
              | (Return k, d4) => (k, d4)
              end in
            k = Continue /\ state (audio_controller d') = AIRPLAY
            /\ (forall p, ~ alive (procs d') p) /\ last_state d' = Some AIRPLAY
            /\ (write_event o = WriteOk ->
                state_file (dir d') = Some (py "airplay" ++ [10%N]))) as Hfin.
  { intros d2 Hs2 Hp2 Hl2 Hf2. cbn. rewrite Hp2.
    repeat split; auto. now apply quiet_processes_exit. }
  case_bool_decide as Hne.
  - apply Hfin; auto. cbn [dir set_last_state publish].
    intros Hw. rewrite write_state_file_result.
    destruct (write_change o); auto.
  - apply Hfin; auto.
Qed.

(** X15. In [AIRPLAY] mode an iteration without a recognised event
    continues the loop with the controller unchanged and the subprocess
    table touched only by the exits of the environment: the loop starts and
    stops nothing.  If [AIRPLAY] was the last state seen, it writes nothing
    either. *)
Theorem airplay_iteration_is_passive (o : loop_oracle) (d : Player.t) :
  state (audio_controller d) = AIRPLAY ->
  (forall m, airplay_manager d = Some m ->
     fst (check_event unicode_lower (event o) m) = Return None) ->
  let '(k, d') := loop_iteration unicode_lower o d in
  k = Continue
  /\ audio_controller d' = audio_controller d
  /\ procs d' = processes_exit (exits_between o) (processes_exit (exits_before o) (procs d))
  /\ (last_state d = Some AIRPLAY -> dir d' = dir d /\ observed d' = observed d).
Proof.
  intros Ha Hev. unfold loop_iteration.
  set (d0 := set_controller _ _ d).
  assert (exists d1, snd (handle_event unicode_lower o d0) = d1
                     /\ (exists x, fst (handle_event unicode_lower o d0) = Return x)
                     /\ audio_controller d1 = audio_controller d
                     /\ procs d1 = processes_exit (exits_before o) (procs d)
                     /\ last_state d1 = last_state d
                     /\ dir d1 = dir d /\ observed d1 = observed d)
    as (d1 & Hd1 & [x Hx] & Hc1 & Hp1 & Hl1 & Hdir1 & Hobs1).
  { unfold handle_event. change (airplay_manager d0) with (airplay_manager d).
    destruct (airplay_manager d) as [m|] eqn:Hm; [|cbn; eauto 10].
    specialize (Hev m eq_refl).
    destruct (check_event unicode_lower (event o) m) as [r m']. cbn [fst] in Hev. subst r.
    cbn. eauto 10. }
  destruct (handle_event unicode_lower o d0) as [r d1']. cbn [fst snd] in Hd1, Hx.
  subst r d1'. unfold publish_change, get_state. rewrite Hc1, Ha.
  case_bool_decide as Hne.
  - cbn. rewrite Hc1, Hp1. split; [reflexivity|]. split; [reflexivity|].
    split; [reflexivity|]. intros Hl. rewrite Hl1, Hl in Hne. now destruct Hne.
  - cbn. rewrite Hc1, Hp1. repeat split; auto.
Qed.

(** *** AirPlay disabled *)

Lemma supervise_not_airplay o cur d :
  state (audio_controller d) <> AIRPLAY ->
  state (audio_controller (snd (supervise unicode_lower o cur d))) <> AIRPLAY
  /\ airplay_manager (snd (supervise unicode_lower o cur d)) = airplay_manager d.
Proof.
  intros Hna. unfold supervise.
  assert (Hst : forall c w, state c <> AIRPLAY ->
            state (snd (fst (start_streaming (second_start o) c w))) <> AIRPLAY).
  { intros c w Hc. pose proof (start_streaming_cases (second_start o) c w) as H.
    destruct (start_streaming _ c w) as [[[[|]|e] c1] w1]; cbn.
    - destruct H as [H _]. congruence.
    - destruct H as [(H & _)|(_ & H)]; congruence.
    - destruct H as [_ H]. congruence. }
  assert (Hidle : forall c w, state c <> AIRPLAY ->
    let r := let '(r, c1, w1) := start_streaming (second_start o) c w in
             match r with
             | Raise e => (Raise e, set_controller c1 w1 d)
             | Return _ =>
               (Return Continue,
                publish unicode_lower (write_after o) (inl (get_state c1))
                  (set_controller c1 w1 d))
             end in
    state (audio_controller (snd r)) <> AIRPLAY
    /\ airplay_manager (snd r) = airplay_manager d).
  { intros c w Hc. specialize (Hst c w Hc).
    destruct (start_streaming _ c w) as [[[b|e] c1] w1]; cbn in *; auto. }
  destruct cur; [|auto|now apply Hidle..].
  destruct (is_playing _ _) as [[|] sp1]; [cbn; auto|].
  destruct (wait _ sp1 _) as [[rc sp2] w2].
  set (c2 := set_stream_player sp2 _).
  pose proof (handle_stream_exit_state rc c2) as Hh.
  destruct (handle_stream_exit rc c2) as [[|] c3]; cbn [snd] in Hh.
  - specialize (Hst (set_state IDLE c3) w2).
    destruct (start_streaming _ _ w2) as [[[[|]|e] c5] w5]; cbn in *;
      (split; [apply Hst; discriminate|reflexivity]).
  - cbn. rewrite Hh. cbn. auto.
Qed.

Lemma loop_iteration_not_airplay o d :
  airplay_manager d = None -> state (audio_controller d) <> AIRPLAY ->
  airplay_manager (snd (loop_iteration unicode_lower o d)) = None
  /\ state (audio_controller (snd (loop_iteration unicode_lower o d))) <> AIRPLAY.
Proof.
  intros Hm Hna. unfold loop_iteration, handle_event. cbn [airplay_manager set_controller].
  rewrite Hm.
  set (d0 := set_controller _ _ d).
  assert (airplay_manager (snd (publish_change unicode_lower o d0)) = None
          /\ state (audio_controller (snd (publish_change unicode_lower o d0))) <> AIRPLAY)
    as [Hm2 Hna2].
  { unfold publish_change. now case_bool_decide. }
  destruct (publish_change unicode_lower o d0) as [cur d2]. cbn [snd] in Hm2, Hna2.
  set (d3 := set_controller _ _ d2).
  destruct (supervise_not_airplay o cur d3 Hna2) as [Hs Hsm].
  destruct (supervise unicode_lower o cur d3) as [[k|e] d4]; cbn [snd] in *.
  - split; [now rewrite Hsm|exact Hs].
  - unfold signal_handler. cbn [audio_controller procs publish].
    unfold shutdown. destruct (stop_streaming _ _ _) as [c' w']. cbn.
    rewrite Hsm. change (airplay_manager d3) with (airplay_manager d2). rewrite Hm2.
    split; [reflexivity|discriminate].
Qed.

(** X16. When [main] runs without an AirPlay manager, the manager stays
    absent and the mode is never [AIRPLAY] at the end of an iteration or of
    the run. *)
Theorem no_manager_never_airplay
    (url : string) (vol : Z) (dir0 : status_dir)
    (first_start : start_oracle) (first_write : write_oracle)
    (os : list loop_oracle) (signal : option shutdown_oracle) :
  let d := snd (main unicode_lower url vol None dir0 first_start first_write os signal) in
  airplay_manager d = None /\ state (audio_controller d) <> AIRPLAY.
Proof.
  assert (Hloop : forall os d,
            airplay_manager d = None -> state (audio_controller d) <> AIRPLAY ->
            airplay_manager (snd (main_loop unicode_lower os d)) = None
            /\ state (audio_controller (snd (main_loop unicode_lower os d))) <> AIRPLAY).
  { clear os. induction os as [|o os IH]; intros d Hm Hna; cbn [main_loop]; [auto|].
    destruct (loop_iteration_not_airplay o d Hm Hna) as [H1 H2].
    destruct (loop_iteration unicode_lower o d) as [[| |code] d']; cbn [snd] in *; auto. }
  unfold main. cbn [audio_controller procs].
  pose proof (start_streaming_cases first_start (AudioController.init url vol) []) as Hc.
  destruct (start_streaming first_start _ []) as [[r c'] w'].
  assert (state c' <> AIRPLAY) as Hna.
  { destruct r as [[|]|e].
    - destruct Hc as [Hc _]. congruence.
    - destruct Hc as [(Hc & _)|(_ & Hc)]; [discriminate Hc|congruence].
    - destruct Hc as [_ Hc]. congruence. }
  destruct r as [[|]|e]; cbn [snd]; [|auto..].
  set (d2 := publish _ _ _ _).
  destruct (Hloop os d2 eq_refl Hna) as [H1 H2].
  destruct (main_loop unicode_lower os d2) as [[| |code] d3]; cbn [snd] in *.
  - destruct signal as [so|]; cbn [snd]; [|auto].
    unfold signal_handler. cbn [audio_controller procs publish].
    unfold shutdown. destruct (stop_streaming _ _ _) as [c1 w1]. cbn.
    rewrite H1. split; [reflexivity|discriminate].
  - destruct signal; auto.
  - destruct signal; auto.
Qed.

(** *** The status file and the mode *)

Lemma publish_tells_mode (c : AudioController.t) (w : world) (d : Player.t) :
  tells_mode (publish unicode_lower WriteOk (inl (get_state c)) (set_controller c w d)).
Proof. reflexivity. Qed.

Lemma signal_handler_tells_mode so d :
  shutdown_write so = WriteOk -> tells_mode (signal_handler unicode_lower so d).
Proof.
  intros Hw. unfold signal_handler. rewrite Hw. cbn [audio_controller procs publish].
  unfold shutdown. destruct (stop_streaming _ _ _) as [c' w']. reflexivity.
Qed.

Lemma handle_event_tells_mode o d :
  write_event o = WriteOk -> tells_mode d ->
  forall x, fst (handle_event unicode_lower o d) = Return x ->
  tells_mode (snd (handle_event unicode_lower o d)).
Proof.
  intros Hw Ht x. unfold handle_event.
  destruct (airplay_manager d) as [m|]; [|auto].
  destruct (check_event unicode_lower (event o) m) as [[[ev|]|e] m']; [|auto|discriminate].
  rewrite Hw. cbn [audio_controller procs set_airplay_manager].
  case_bool_decide.
  { destruct (switch_to_airplay _ _ _) as [[b c'] w']. intros _. reflexivity. }
  case_bool_decide; [|auto].
  destruct (switch_to_streaming _ _ _) as [[[b|e] c'] w']; [|discriminate].
  intros _. reflexivity.
Qed.

Lemma publish_change_tells_mode o d :
  write_change o = WriteOk -> tells_mode d ->
  tells_mode (snd (publish_change unicode_lower o d)).
Proof.
  intros Hw Ht. unfold publish_change. case_bool_decide; [|exact Ht].
  rewrite Hw. reflexivity.
Qed.

Lemma supervise_tells_mode o d :
  write_idle o = WriteOk -> write_after o = WriteOk -> tells_mode d ->
  forall k, fst (supervise unicode_lower o (state (audio_controller d)) d) = Return k ->
  tells_mode (snd (supervise unicode_lower o (state (audio_controller d)) d)).
Proof.
  intros Hwi Hwa Ht k. unfold supervise. rewrite Hwi, Hwa.
  assert (Hidle : forall c w,
    let r := let '(r, c1, w1) := start_streaming (second_start o) c w in
             match r with
             | Raise e => (Raise e, set_controller c1 w1 d)
             | Return _ =>
               (Return Continue,
                publish unicode_lower WriteOk (inl (get_state c1)) (set_controller c1 w1 d))
             end in
    fst r = Return k -> tells_mode (snd r)).
  { intros c w. destruct (start_streaming _ c w) as [[[b|e] c1] w1]; cbn;
      [|discriminate].
    intros _. reflexivity. }
  destruct (state (audio_controller d)) eqn:Hs; [|auto|apply Hidle..].
  destruct (is_playing _ _) as [[|] sp1].
  { intros _. exact Ht. }
  destruct (wait _ sp1 _) as [[rc sp2] w2].
  set (c2 := set_stream_player sp2 _).
  pose proof (handle_stream_exit_state rc c2) as Hh.
  destruct (handle_stream_exit rc c2) as [[|] c3]; cbn [snd] in Hh.
  - destruct (start_streaming _ _ w2) as [[[[|]|e] c5] w5]; [..|discriminate];
      intros _; reflexivity.
  - intros _. unfold tells_mode in *. cbn. rewrite Hh. exact Ht.
Qed.

Lemma loop_iteration_tells_mode o d :
  writes_succeed o -> tells_mode d ->
  tells_mode (snd (loop_iteration unicode_lower o d)).
Proof.
  intros (Hwe & Hwc & Hwi & Hwa & Hws) Ht. unfold loop_iteration.
  set (d0 := set_controller _ _ d).
  assert (tells_mode d0) as Ht0 by exact Ht.
  pose proof (handle_event_tells_mode o d0 Hwe Ht0) as He.
  destruct (handle_event unicode_lower o d0) as [[x|e] d1]; cbn [fst snd] in *;
    [|now apply signal_handler_tells_mode].
  specialize (He x eq_refl).
  pose proof (publish_change_tells_mode o d1 Hwc He) as Hp.
  assert (fst (publish_change unicode_lower o d1)
          = state (audio_controller (snd (publish_change unicode_lower o d1)))) as Hcur.
  { unfold publish_change. now case_bool_decide. }
  destruct (publish_change unicode_lower o d1) as [cur d2]. cbn [fst snd] in *.
  set (d3 := set_controller _ _ d2).
  assert (tells_mode d3) as Ht3 by exact Hp.
  assert (cur = state (audio_controller d3)) as -> by exact Hcur.
  pose proof (supervise_tells_mode o d3 Hwi Hwa Ht3) as Hs.
  destruct (supervise unicode_lower o _ d3) as [[k|e] d4]; cbn [fst snd] in *.
  - now apply (Hs k).
  - now apply signal_handler_tells_mode.
Qed.

Lemma main_loop_tells_mode os : forall d,
  Forall writes_succeed os -> tells_mode d ->
  tells_mode (snd (main_loop unicode_lower os d)).
Proof.
  induction os as [|o os IH]; intros d Hall Ht; cbn [main_loop]; [exact Ht|].
  inversion Hall as [|? ? Ho Hos]; subst.
  pose proof (loop_iteration_tells_mode o d Ho Ht) as H.
  destruct (loop_iteration unicode_lower o d) as [[| |code] d']; cbn [snd] in *; auto.
Qed.

(** X17. When every write of the status file succeeds, the file tells the
    mode at the end of every iteration and of the run: it holds the line of
    the controller's mode, unless [main] failed at start-up. *)
Theorem status_file_tells_mode
    (url : string) (vol : Z) (manager : option AirPlayManager.t) (dir0 : status_dir)
    (first_start : start_oracle) (os : list loop_oracle) (signal : option shutdown_oracle) :
  Forall writes_succeed os ->
  (forall so, signal = Some so -> shutdown_write so = WriteOk) ->
  let '(k, d) := main unicode_lower url vol manager dir0 first_start WriteOk os signal in
  k <> SysExit 1 ->
  state_file (dir d) = Some (AudioState_value (state (audio_controller d)) ++ [10%N]).
Proof.
  intros Hall Hsig. unfold main. cbn [audio_controller procs].
  destruct (start_streaming first_start _ []) as [[r c'] w'].
  destruct r as [[|]|e]; [|intros H; now destruct H..].
  set (d2 := publish _ _ _ _).
  assert (tells_mode d2) as Ht2 by reflexivity.
  pose proof (main_loop_tells_mode os d2 Hall Ht2) as Hl.
  destruct (main_loop unicode_lower os d2) as [[| |code] d3]; cbn [snd] in Hl.
  - destruct signal as [so|]; intros _; [|exact Hl].
    apply signal_handler_tells_mode. now apply Hsig.
  - destruct signal; intros _; exact Hl.
  - destruct signal; intros _; exact Hl.
Qed.

End Program.

Lemma streaming_daemon_supervised : supervised streaming_daemon.
Proof.
  intros p Hp. destruct p as [|p]; [repeat split|].
  unfold alive in Hp. cbn in Hp. discriminate.
Defined.


Lemma connect_enters_airplay_witness :
  state (audio_controller
           (snd (loop_iteration (fun cp => [cp]) connect_arrives streaming_daemon)))
  = AIRPLAY.
Proof.
  pose proof (connect_enters_airplay (fun cp => [cp]) connect_arrives streaming_daemon
                (AirPlayManager.mk (Some 5) false)
                streaming_daemon_supervised eq_refl eq_refl) as H.
  destruct (loop_iteration (fun cp => [cp]) connect_arrives streaming_daemon) as [k d'].
  exact (proj1 (proj2 H)).
Defined.

Lemma airplay_iteration_is_passive_witness :
  fst (loop_iteration (fun cp => [cp]) uneventful airplay_daemon) = Continue.
Proof.
  pose proof (airplay_iteration_is_passive (fun cp => [cp]) uneventful airplay_daemon
                eq_refl) as H.
  destruct (loop_iteration (fun cp => [cp]) uneventful airplay_daemon) as [k d'].
  apply H. intros m [= <-]. reflexivity.
Defined.

Lemma status_file_tells_mode_witness :
  state_file
    (dir (snd (main (fun cp => [cp]) "http://radio" 100 None
                 {| state_file := None; temp_file := None |}
                 started WriteOk [player_exits 0 1 mpv_missing; uneventful] None)))
  = Some (py "streaming" ++ [10%N]).
Proof.
  pose proof (status_file_tells_mode (fun cp => [cp]) "http://radio" 100 None
                {| state_file := None; temp_file := None |}
                started [player_exits 0 1 mpv_missing; uneventful] None) as H.
  cbv zeta in H.
  destruct (main (fun cp => [cp]) "http://radio" 100 None
              {| state_file := None; temp_file := None |}
              started WriteOk [player_exits 0 1 mpv_missing; uneventful] None)
    as [k d] eqn:E.
  assert (k = Continue /\ state (audio_controller d) = STREAMING) as [Hk Hs].
  { vm_compute in E. injection E as <- <-. split; reflexivity. }
  cbn [snd]. rewrite H.
  - now rewrite Hs.
  - repeat constructor.
  - intros so [=].
  - rewrite Hk. discriminate.
Defined.

(** ** The status reader and the LEDs *)

Section Leds.

Variable unicode_lower : N -> list N.

(** What [run] reads at one poll. *)
Local Abbreviation reading o snap :=
  (if LEDController.readable o then read_state unicode_lower snap else None).

Lemma read_state_value (s : AudioState) (d : status_dir) :
  state_file d = Some (AudioState_value s ++ [10%N]) ->
  read_state unicode_lower d
  = if decide (s = TRANSITIONING) then None else Some (AudioState_value s).
Proof.
  intros Hf. unfold read_state. rewrite Hf. now destruct s.
Qed.

(** X18. Writer and reader agree: after a successful [write_state_file]
    of a mode, [read_state] returns that mode's token, and [None] for
    [TRANSITIONING], which the reader does not accept.  At every step of
    the call, and after a failed call, the reader sees what it saw before
    or the new token. *)
Theorem publish_then_read (o : write_oracle) (s : AudioState) (before : status_dir) :
  let new := if decide (s = TRANSITIONING) then None else Some (AudioState_value s) in
  read_state unicode_lower (write_state_file unicode_lower WriteOk (inl s) before) = new
  /\ (o <> WriteOk ->
      read_state unicode_lower (write_state_file unicode_lower o (inl s) before)
      = read_state unicode_lower before)
  /\ Forall (fun snap => read_state unicode_lower snap = read_state unicode_lower before
                         \/ read_state unicode_lower snap = new)
            (write_state_file_steps unicode_lower o (inl s) before).
Proof.
  intros new. split; [|split].
  - now apply read_state_value.
  - intros Ho. unfold read_state. rewrite write_state_file_result.
    now destruct o.
  - destruct (write_state_file_steps_spec unicode_lower o (inl s) before) as [Hsteps _].
    eapply Forall_impl; [exact Hsteps|]. intros snap [H|H].
    + left. unfold read_state. now rewrite H.
    + right. now apply read_state_value.
Qed.

Lemma update_leds_shows (state : option pystr) (g : gmap nat LEDController.level) :
  leds_show (LEDController.update_leds true true state g) state.
Proof.
  unfold leds_show, LEDController.update_leds.
  case_bool_decide as Ha.
  - rewrite Ha. split.
    + apply lookup_insert_eq.
    + rewrite lookup_insert_ne by discriminate. apply lookup_insert_eq.
  - case_bool_decide as Hs.
    + split.
      * rewrite lookup_insert_ne by discriminate. apply lookup_insert_eq.
      * apply lookup_insert_eq.
    + split.
      * rewrite lookup_insert_ne by discriminate. apply lookup_insert_eq.
      * apply lookup_insert_eq.
Qed.

(** X19. When both GPIO calls succeed, [update_leds] leaves the stream
    LED lit exactly for ['streaming'] and the AirPlay LED exactly for
    ['airplay'], so never both; it touches no other pin, and repeating it
    changes nothing. *)
Theorem update_leds_shows_state (state : option pystr) (g : gmap nat LEDController.level) :
  let g' := LEDController.update_leds true true state g in
  leds_show g' state
  /\ ~ (g' !! LEDController.STREAM_LED_PIN = Some LEDController.HIGH
        /\ g' !! LEDController.AIRPLAY_LED_PIN = Some LEDController.HIGH)
  /\ (forall pin, pin <> LEDController.STREAM_LED_PIN ->
        pin <> LEDController.AIRPLAY_LED_PIN -> g' !! pin = g !! pin)
  /\ LEDController.update_leds true true state g' = g'.
Proof.
  intros g'. pose proof (update_leds_shows state g) as Hs. fold g' in Hs.
  split; [exact Hs|]. split; [|split].
  - destruct Hs as [H1 H2]. rewrite H1, H2. intros [Hx Hy].
    repeat case_bool_decide; try discriminate. subst state. discriminate.
  - intros pin Hp1 Hp2. subst g'. unfold LEDController.update_leds.
    repeat case_bool_decide; rewrite !lookup_insert_ne by congruence; reflexivity.
  - subst g'. unfold LEDController.update_leds.
    repeat case_bool_decide; apply map_eq; intros pin;
      rewrite !lookup_insert; repeat case_decide; congruence.
Qed.




(** X21. A failed GPIO call is not retried: when the first [GPIO.output]
    of an update fails, the pins stay as they were, yet the state counts as
    shown, so that later polls reading the same state leave the pins
    alone even though their GPIO calls would succeed. *)
Theorem failed_update_is_not_retried
    (o : LEDController.poll_oracle) (snap : status_dir) (l : LEDController.t)
    (polls : list (LEDController.poll_oracle * status_dir)) :
  LEDController.gpio_first o = false ->
  Forall (fun poll => reading (fst poll) (snd poll) = reading o snap) polls ->
  let l' := LEDController.run unicode_lower ((o, snap) :: polls) l in
  LEDController.gpio l' = LEDController.gpio l
  /\ LEDController.last_state l' = reading o snap.
Proof.
  intros Hf Hall l'. subst l'. cbn [LEDController.run].
  assert (LEDController.gpio (LEDController.run_iteration unicode_lower o snap l)
          = LEDController.gpio l
          /\ LEDController.last_state (LEDController.run_iteration unicode_lower o snap l)
             = reading o snap) as [Hg Hl].
  { unfold LEDController.run_iteration. case_bool_decide as Hne.
    - cbn. unfold LEDController.update_leds. rewrite Hf.
      split; [|reflexivity].
      now destruct (bool_decide _); [|destruct (bool_decide _)].
    - split; [reflexivity|].
      destruct (decide (reading o snap = LEDController.last_state l)) as [He|He];
        [now symmetry|now destruct Hne]. }
  revert Hg Hl. generalize (LEDController.run_iteration unicode_lower o snap l).
  induction polls as [|[o' snap'] polls IH]; intros l1 Hg Hl; [now cbn|].
  inversion Hall as [|? ? Hsame Hrest]; subst. cbn [LEDController.run fst snd] in *.
  apply IH; [exact Hrest|..].
  - rewrite <- Hg. unfold LEDController.run_iteration.
    rewrite bool_decide_eq_false_2; [reflexivity|]. intros Hne. apply Hne. congruence.
  - unfold LEDController.run_iteration.
    rewrite bool_decide_eq_false_2; [exact Hl|]. intros Hne. apply Hne. congruence.
Qed.

End Leds.

(** ** The named pipe *)

(** X22. [setup_ipc] leaves the umask of the process as it found it on
    every path.  It answers [True] only if the pipe path exists afterwards,
    and [False] only after it went on to create the pipe and [mkfifo] or
    [chmod] failed. *)
Theorem setup_ipc_restores_umask (o : setup_oracle) (fs : pipe_fs) :
  let '(ok, fs') := setup_ipc o fs in
  umask fs' = umask fs
  /\ (ok = true -> fifo_mode fs' <> None)
  /\ (ok = false ->
      (mkfifo o = false \/ chmod o = false)
      /\ (fifo_mode fs = None \/ (test_open o = false /\ unlink o = true))).
Proof.
  unfold setup_ipc, create_pipe.
  destruct (fifo_mode fs) as [mode|] eqn:Hf; cbn.
  - destruct (test_open o); [cbn; try rewrite Hf; repeat split; discriminate|].
    destruct (unlink o); [|cbn; try rewrite Hf; repeat split; discriminate].
    cbn. destruct (mkfifo o); [destruct (chmod o)|]; cbn;
      repeat split; auto; discriminate.
  - try rewrite Hf. destruct (mkfifo o); [destruct (chmod o)|]; cbn;
      repeat split; auto; discriminate.
Qed.

(** X23. [setup_ipc] never touches a pipe whose trial open succeeds, and
    it removes an existing pipe only after the trial open failed.  A pipe
    it creates has mode [rw-rw-rw-] whatever umask the process inherited,
    also when the [chmod] that follows fails. *)
Theorem setup_ipc_keeps_usable_pipe (o : setup_oracle) (fs : pipe_fs) :
  let '(ok, fs') := setup_ipc o fs in
  (fifo_mode fs <> None -> test_open o = true -> ok = true /\ fs' = fs)
  /\ (fifo_mode fs <> None -> unlink o = false -> ok = true /\ fs' = fs)
  /\ (fifo_mode fs' <> fifo_mode fs ->
      (fifo_mode fs = None /\ mkfifo o = true)
      \/ (fifo_mode fs <> None /\ test_open o = false /\ unlink o = true))
  /\ (mkfifo o = true ->
      fifo_mode fs = None \/ (test_open o = false /\ unlink o = true) ->
      fifo_mode fs' = Some mode_rw_all).
Proof.
  unfold setup_ipc, create_pipe.
  destruct (fifo_mode fs) as [mode|] eqn:Hf; cbn.
  - destruct (test_open o).
    { cbn. try rewrite Hf. repeat split; auto; try tauto.
      intros _ [H|[H _]]; discriminate. }
    destruct (unlink o).
    2: { cbn. try rewrite Hf. repeat split; auto; try tauto; try discriminate.
         intros _ [H|[_ H]]; discriminate. }
    cbn. destruct (mkfifo o); [destruct (chmod o)|]; cbn;
      repeat split; auto; try discriminate; try tauto.
  - try rewrite Hf. destruct (mkfifo o); [destruct (chmod o)|]; cbn;
      repeat split; auto; try discriminate; try tauto.
Qed.

(** X24. A reader holding a descriptor keeps it through [check_event]
    unless the readiness wait raises an [OSError]: no message, timeout,
    decoding failure or read error costs the descriptor.  The reader is
    left without one only if the wait raised an [OSError], [os.close]
    succeeded and the pipe could not be reopened. *)
Theorem check_event_keeps_descriptor
    (unicode_lower : N -> list N) (o : event_oracle) (m : AirPlayManager.t) (fd : Z) :
  pipe_fd m = Some fd ->
  let m' := snd (check_event unicode_lower o m) in
  ((forall e, select o = Raise e -> is_OSError e = false) -> m' = m)
  /\ (pipe_fd m' = None ->
      (exists e, select o = Raise e /\ is_OSError e = true)
      /\ (exists u, os_close o = Return u)
      /\ (path_exists_after o = false
          \/ path_exists (reopen_after o) = false
          \/ os_open (reopen_after o) = None))
  /\ _is_connected m' = _is_connected m.
Proof.
  intros Hfd m'. subst m'. unfold check_event, ensure_open. rewrite Hfd. cbn [negb].
  destruct (select o) as [[|]|e].
  - assert (snd (match read_event unicode_lower (os_read o) with
                 | Return r => (Return r, m)
                 | Raise UnicodeDecodeError => (Return None, m)
                 | Raise _ => (Return None, m)
                 end) = m) as ->.
    { destruct (read_event unicode_lower (os_read o)) as [r|[]]; reflexivity. }
    split; [auto|]. split; [congruence|reflexivity].
  - cbn. split; [auto|]. split; [congruence|reflexivity].
  - destruct (is_OSError e) eqn:He; cbn [snd].
    2: { split; [auto|]. split; [congruence|reflexivity]. }
    split; [intros H; specialize (H e eq_refl); congruence|].
    unfold close_and_reopen, close_pipe, open_pipe. rewrite Hfd.
    destruct (os_close o) as [u|e'].
    + destruct (path_exists_after o); cbn.
      * destruct (path_exists (reopen_after o)); cbn.
        -- destruct (os_open (reopen_after o)); cbn; split; try discriminate; eauto 10.
        -- split; eauto 10.
      * split; eauto 10.
    + destruct (path_exists_after o); cbn.
      * destruct (path_exists (reopen_after o)); cbn.
        -- destruct (os_open (reopen_after o)); cbn; split; try discriminate; auto;
             congruence.
        -- split; [congruence|reflexivity].
      * split; [congruence|reflexivity].
Qed.

Lemma check_event_keeps_descriptor_witness :
  snd (check_event (fun cp => [cp]) connect_arrives.(Player.event)
         (AirPlayManager.mk (Some 5) false))
  = AirPlayManager.mk (Some 5) false.
Proof.
  apply (check_event_keeps_descriptor (fun cp => [cp]) (Player.event connect_arrives)
           (AirPlayManager.mk (Some 5) false) 5 eq_refl).
  intros e [=].
Defined.

(** X25. A reader without a descriptor first tries to reopen the pipe.
    If the pipe is missing or cannot be opened, [check_event] returns
    [None] at once with the reader unchanged, to try again at the next
    call; if it opens, the reader holds the new descriptor afterwards
    unless the readiness wait raises an [OSError]. *)
Theorem check_event_reopens_pipe
    (unicode_lower : N -> list N) (o : event_oracle) (m : AirPlayManager.t) :
  pipe_fd m = None ->
  (path_exists (reopen o) = false \/ os_open (reopen o) = None ->
   check_event unicode_lower o m = (Return None, m))
  /\ (forall fd, path_exists (reopen o) = true -> os_open (reopen o) = Some fd ->
        (forall e, select o = Raise e -> is_OSError e = false) ->
        pipe_fd (snd (check_event unicode_lower o m)) = Some fd).
Proof.
  intros Hfd. unfold check_event, ensure_open, open_pipe. rewrite Hfd. split.
  - intros [H|H].
    + now rewrite H.
    + rewrite H. now destruct (path_exists (reopen o)).
  - intros fd Hp Ho Hsel. rewrite Hp, Ho. cbn [negb].
    destruct (select o) as [[|]|e].
    + destruct (read_event unicode_lower (os_read o)) as [r|[]]; reflexivity.
    + reflexivity.
    + now rewrite (Hsel e eq_refl).
Qed.

Lemma check_event_reopens_pipe_witness :
  check_event (fun cp => [cp]) (Player.event uneventful) AirPlayManager.init
  = (Return None, AirPlayManager.init).
Proof.
  apply (check_event_reopens_pipe (fun cp => [cp]) (Player.event uneventful)
           AirPlayManager.init eq_refl).
  left. reflexivity.
Defined.

(** ** Witnesses for the LEDs *)


Lemma failed_update_is_not_retried_witness :
  LEDController.gpio
    (LEDController.run (fun cp => [cp])
       [({| LEDController.readable := true; LEDController.gpio_first := false;
            LEDController.gpio_second := true |},
         {| state_file := Some (py "airplay" ++ [10%N]); temp_file := None |});
        ({| LEDController.readable := true; LEDController.gpio_first := true;
            LEDController.gpio_second := true |},
         {| state_file := Some (py "airplay" ++ [10%N]); temp_file := None |})]
       LEDController.init)
  = LEDController.gpio LEDController.init.
Proof.
  apply (failed_update_is_not_retried (fun cp => [cp])
           {| LEDController.readable := true; LEDController.gpio_first := false;
              LEDController.gpio_second := true |}
           {| state_file := Some (py "airplay" ++ [10%N]); temp_file := None |}
           LEDController.init
           [({| LEDController.readable := true; LEDController.gpio_first := true;
                LEDController.gpio_second := true |},
             {| state_file := Some (py "airplay" ++ [10%N]); temp_file := None |})]).
  - reflexivity.
  - constructor; [reflexivity|constructor].
Defined.

(** ** Exit codes and the health of the player *)

(** X26. [handle_stream_exit] tells exit codes apart only as zero or
    not: any two codes other than 0, be they 1, 2, the -1 of a missing
    process or anything else, get the same answer and leave the same
    controller. *)
Theorem handle_stream_exit_code_classes (rc rc' : Z) (c : AudioController.t) :
  rc <> 0 -> rc' <> 0 -> handle_stream_exit rc c = handle_stream_exit rc' c.
Proof.
  intros H1 H2. unfold handle_stream_exit.
  apply Z.eqb_neq in H1, H2. now rewrite H1, H2.
Qed.

Lemma handle_stream_exit_code_classes_witness :
  handle_stream_exit 1 (AudioController.mk (StreamPlayer.init "u" 80) STREAMING)
  = handle_stream_exit (-1) (AudioController.mk (StreamPlayer.init "u" 80) STREAMING).
Proof.
  apply (handle_stream_exit_code_classes 1 (-1)); discriminate.
Defined.

Lemma is_streaming_alive c w :
  fst (is_streaming c w) = true -> exists p, alive w p.
Proof.
  unfold is_streaming, is_playing.
  destruct (decide (state c = STREAMING)); [|discriminate].
  destruct (process (stream_player c)) as [p|]; [|discriminate].
  destruct (poll w p) eqn:E; [discriminate|].
  intros _. exists p. now apply poll_None_alive.
Qed.

Section Health.

Variable unicode_lower : N -> list N.

Lemma supervise_streaming_alive o cur d d' :
  cur = state (audio_controller d) ->
  supervise unicode_lower o cur d = (Return Continue, d') ->
  state (audio_controller d') = STREAMING ->
  fst (is_streaming (audio_controller d') (procs d')) = true.
Proof.
  intros Hcur. unfold supervise.
  assert (Hidle : forall c w,
    (let '(r, c1, w1) := start_streaming (second_start o) c w in
     match r with
     | Raise e => (Raise e, set_controller c1 w1 d)
     | Return _ =>
       (Return Continue,
        publish unicode_lower (write_after o) (inl (get_state c1))
          (set_controller c1 w1 d))
     end) = (Return Continue, d') ->
    state (audio_controller d') = STREAMING ->
    fst (is_streaming (audio_controller d') (procs d')) = true).
  { intros c w. pose proof (start_streaming_cases (second_start o) c w) as Hc.
    destruct (start_streaming _ c w) as [[[[|]|e] c1] w1]; [| |discriminate].
    - intros [= <-] _. cbn. tauto.
    - intros [= <-]. cbn. intros Hs.
      destruct Hc as [(Ha & -> & _)|(_ & Hi)]; congruence. }
  destruct cur; [|intros [= <-]; cbn; congruence|apply Hidle..].
  destruct (is_playing (stream_player (audio_controller d)) (procs d))
    as [[|] sp1] eqn:Hp.
  { intros [= <-] _. cbn. unfold is_streaming. cbn.
    rewrite decide_True by congruence.
    pose proof (is_playing_true_same (stream_player (audio_controller d)) (procs d)) as Ht.
    rewrite Hp in Ht. cbn in Ht. rewrite Ht by reflexivity. now rewrite Hp. }
  destruct (wait _ sp1 _) as [[rc sp2] w2].
  destruct (handle_stream_exit rc _) as [[|] c3]; [|discriminate].
  pose proof (start_streaming_cases (second_start o) (set_state IDLE c3) w2) as Hc.
  destruct (start_streaming _ _ w2) as [[[[|]|e] c5] w5]; [| |discriminate].
  - intros [= <-] _. cbn. destruct Hc as [Hs Hl]. clear Hidle.
    unfold is_streaming, is_playing in *. cbn in *.
    destruct (decide (state c5 = STREAMING)); [|discriminate].
    destruct (process (stream_player c5)) as [p|]; [|discriminate].
    destruct (poll w5 p); [discriminate|exact Hl].
  - intros [= <-]. cbn. intros Hs.
    destruct Hc as [(Ha & _)|(_ & Hi)]; [discriminate Ha|congruence].
Qed.

(** X27. A dead player does not outlive an iteration: whenever an
    iteration continues the loop in [STREAMING] mode, [is_streaming()] is
    true at its end, so a playback subprocess is running.  A player found
    dead has by then been restarted, or the mode has left [STREAMING], or
    the loop has ended. *)
Theorem streaming_player_alive_after_iteration (o : loop_oracle) (d : Player.t) :
  let '(k, d') := loop_iteration unicode_lower o d in
  k = Continue ->
  state (audio_controller d') = STREAMING ->
  fst (is_streaming (audio_controller d') (procs d')) = true
  /\ exists p, alive (procs d') p.
Proof.
  unfold loop_iteration.
  destruct (handle_event unicode_lower o _) as [[x|e] d1]; [|discriminate].
  assert (fst (publish_change unicode_lower o d1)
          = state (audio_controller (snd (publish_change unicode_lower o d1)))) as Hcur.
  { unfold publish_change. now case_bool_decide. }
  destruct (publish_change unicode_lower o d1) as [cur d2]. cbn [fst snd] in Hcur.
  set (d3 := set_controller _ _ d2).
  pose proof (supervise_streaming_alive o cur d3) as Hs.
  destruct (supervise unicode_lower o cur d3) as [[k|e] d4]; [|discriminate].
  intros -> Hst. specialize (Hs d4 Hcur eq_refl Hst).
  split; [exact Hs|]. eapply is_streaming_alive; eauto.
Qed.

End Health.
